(** * Donation Roulette: a shallow embedding of the spin/confirm machinery

    The development follows the layout of the repository:
    - [Data]      lib/charities.ts and lib/wallets.ts (static tables);
    - [Double]    the arithmetic of JavaScript numbers;
    - [Rng]       the contract of the runtime primitive [Math.random];
    - [Wallet]    lib/walletHelper.ts ([sendDonation], [isWalletAvailable]);
    - [Root]      app/page.tsx (the state slots and handlers of [Home]);
    - [Spinner]   components/DonationSpinner.tsx;
    - [Picker]    components/CharityPicker.tsx;
    - [Modal]     components/DonationModal.tsx;
    - [App]       the mounted tree: [Home] with its two selectors, the timers
                  of the page and the way React re-runs effects.

    A JavaScript number is a rational together with the rounding the
    language applies after each arithmetic operation ([Double.rnd]:
    binary64, round to nearest, ties to even); times are natural numbers of
    milliseconds. *)

From Stdlib Require Import QArith Qround Qpower ZArith List String Ascii Bool Arith Lia Lqa.
Import ListNotations.

Set Implicit Arguments.

(* ------------------------------------------------------------------ *)
(** ** lib/charities.ts, lib/wallets.ts *)

Module Data.

Open Scope string_scope.

Record Charity := mkCharity {
  id : string;
  name : string;
  description : string;
  walletAddress : string;
  imageUrl : option string
}.

Definition DONATION_AMOUNTS : list Q :=
  [0.05; 0.10; 0.25; 0.50; 1.00; 2.00; 5.00; 10.00]%Q.

Definition water_org : Charity :=
  mkCharity "water-org" "Water.org"
    "Access to safe water and sanitation to families around the world through affordable financing."
    "0x1234567890123456789012345678901234567890"
    (Some "/images/water-org.png").

Definition save_children : Charity :=
  mkCharity "save-children" "Save the Children"
    "Giving children a healthy start, the opportunity to learn, and protection from harm."
    "0x2345678901234567890123456789012345678901"
    (Some "/images/save-children.png").

Definition doctors_borders : Charity :=
  mkCharity "doctors-borders" "Doctors Without Borders"
    "Medical humanitarian organization providing aid in nearly 70 countries to people affected by conflict, epidemics, disasters, or exclusion from healthcare."
    "0x3456789012345678901234567890123456789012"
    (Some "/images/doctors-borders.png").

Definition wwf : Charity :=
  mkCharity "wwf" "World Wildlife Fund"
    "Leading organization in wildlife conservation and endangered species protection."
    "0x4567890123456789012345678901234567890123"
    (Some "/images/wwf.png").

Definition unicef : Charity :=
  mkCharity "unicef" "UNICEF"
    "Works in over 190 countries to save children's lives, defend their rights, and help them fulfill their potential."
    "0x5678901234567890123456789012345678901234"
    (Some "/images/unicef.png").

Definition acumen : Charity :=
  mkCharity "acumen" "Acumen"
    "Changing the way the world tackles poverty by investing in sustainable businesses, leaders, and ideas."
    "0x6789012345678901234567890123456789012345"
    (Some "/images/acumen.png").

Definition CHARITIES : list Charity :=
  [water_org; save_children; doctors_borders; wwf; unicef; acumen].

(** [CHARITIES[0]], the initial value of the root's charity slot. *)
Definition CHARITIES_0 : Charity := water_org.

Record Wallet := mkWallet {
  wid : string;
  wname : string;
  iconName : string;
  color : string
}.

Definition wallets : list Wallet :=
  [ mkWallet "metamask" "MetaMask" "SiMetamask" "#F6851B";
    mkWallet "coinbase" "Coinbase Wallet" "SiCoinbase" "#0052FF";
    mkWallet "walletconnect" "WalletConnect" "SiWalletconnect" "#3B99FC";
    mkWallet "trustwallet" "Trust Wallet" "SiTrustpilot" "#3375BB" ].

Definition option_string_eqb (a b : option string) : bool :=
  match a, b with
  | Some x, Some y => String.eqb x y
  | None, None => true
  | _, _ => false
  end.

Definition charity_eqb (a b : Charity) : bool :=
  String.eqb (id a) (id b) && String.eqb (name a) (name b) &&
  String.eqb (description a) (description b) &&
  String.eqb (walletAddress a) (walletAddress b) &&
  option_string_eqb (imageUrl a) (imageUrl b).

Lemma option_string_eqb_eq a b : option_string_eqb a b = true <-> a = b.
Proof.
  destruct a as [x|], b as [y|]; simpl; try (split; congruence).
  rewrite String.eqb_eq. split; congruence.
Qed.

Lemma charity_eqb_eq a b : charity_eqb a b = true <-> a = b.
Proof.
  unfold charity_eqb. rewrite !andb_true_iff, !String.eqb_eq, option_string_eqb_eq.
  destruct a, b; simpl. split.
  - intros [[[[-> ->] ->] ->] ->]. reflexivity.
  - intros H; injection H as -> -> -> -> ->. repeat split.
Qed.

End Data.

(* ------------------------------------------------------------------ *)
(** ** JavaScript numbers

    A Number is an IEEE 754 binary64 value.  The finite ones are the
    rationals [m * 2^e] with [|m| < 2^53] and [-1074 <= e]; an arithmetic
    operation returns the exact result rounded to the nearest such value,
    ties going to the even significand.  [rnd] is that rounding.  No
    computation of the repository leaves the range of finite values (all
    its numbers are below 4000 in magnitude), so overflow, infinities and
    NaN are not modelled. *)

Module Double.

Open Scope Q_scope.

Definition pow2 (e : Z) : Q := 2 ^ e.

(** [floor (log2 x)] for [0 < x]. *)
Definition ilog2 (x : Q) : Z :=
  let e0 := (Z.log2 (Qnum x) - Z.log2 (Zpos (Qden x)))%Z in
  if Qle_bool (pow2 e0) x then e0 else (e0 - 1)%Z.

(** The exponent of the smallest positive value, [2^-1074]. *)
Definition MIN_EXP : Z := -1074.

(** The exponent of the unit in the last place of the values around [x]:
    53 significant bits, and never below [MIN_EXP] (subnormal values). *)
Definition ulp_exp (x : Q) : Z := Z.max (ilog2 x - 52) MIN_EXP.

(** Round to the nearest integer, a tie to the even one. *)
Definition rne (y : Q) : Z :=
  let f := Qfloor y in
  match Qcompare (y - inject_Z f) (1 # 2) with
  | Lt => f
  | Gt => (f + 1)%Z
  | Eq => if Z.even f then f else (f + 1)%Z
  end.

Definition rnd_pos (x : Q) : Q :=
  inject_Z (rne (x / pow2 (ulp_exp x))) * pow2 (ulp_exp x).

Definition rnd (x : Q) : Q :=
  match Qcompare x 0 with
  | Eq => 0
  | Gt => rnd_pos x
  | Lt => - rnd_pos (- x)
  end.

(** The four operations of the language on finite values. *)
Definition add (x y : Q) : Q := rnd (x + y).
Definition sub (x y : Q) : Q := rnd (x - y).
Definition mul (x y : Q) : Q := rnd (x * y).
Definition div (x y : Q) : Q := rnd (x / y).

(** Proofs reason about [rnd] through its lemmas; it is evaluated on closed
    terms only. *)
Arguments rnd : simpl never.
Arguments add : simpl never.
Arguments sub : simpl never.
Arguments mul : simpl never.
Arguments div : simpl never.

Lemma pow2_pos e : 0 < pow2 e.
Proof. apply Qpower_0_lt. reflexivity. Qed.

Lemma pow2_add a b : pow2 (a + b) == pow2 a * pow2 b.
Proof. apply Qpower_plus. discriminate. Qed.

Lemma pow2_lt a b : (a < b)%Z -> pow2 a < pow2 b.
Proof. intros H. apply Qpower_lt_compat_l; [exact H | reflexivity]. Qed.

Lemma pow2_le a b : (a <= b)%Z -> pow2 a <= pow2 b.
Proof. intros H. apply Qpower_le_compat_l; [exact H | discriminate]. Qed.

Lemma pow2_lt_inv a b : pow2 a < pow2 b -> (a < b)%Z.
Proof. intros H. eapply Qpower_lt_compat_l_inv; [exact H | reflexivity]. Qed.

Lemma pow2_Z (k : Z) : (0 <= k)%Z -> pow2 k == inject_Z (2 ^ k).
Proof. intros H. unfold pow2. rewrite Zpower_Qpower by exact H. reflexivity. Qed.

Lemma rne_bounds (y : Q) :
  y - (1 # 2) <= inject_Z (rne y) /\ inject_Z (rne y) <= y + (1 # 2).
Proof.
  unfold rne.
  pose proof (Qfloor_le y) as Hlo. pose proof (Qlt_floor y) as Hhi.
  rewrite inject_Z_plus in Hhi. change (inject_Z 1) with 1 in Hhi.
  destruct (Qcompare (y - inject_Z (Qfloor y)) (1 # 2)) eqn:Hc.
  - apply Qeq_alt in Hc.
    destruct (Z.even (Qfloor y)); rewrite ?inject_Z_plus;
      change (inject_Z 1) with 1; split; lra.
  - apply Qlt_alt in Hc. split; lra.
  - apply Qgt_alt in Hc. rewrite inject_Z_plus. change (inject_Z 1) with 1.
    split; lra.
Qed.

Lemma rne_nonneg (y : Q) : 0 <= y -> (0 <= rne y)%Z.
Proof.
  intros H. unfold rne.
  assert (Hf : (0 <= Qfloor y)%Z).
  { change 0%Z with (Qfloor (inject_Z 0)). apply Qfloor_resp_le. exact H. }
  destruct (Qcompare _ _); [destruct (Z.even _)| |]; lia.
Qed.

Lemma Qnum_pos (x : Q) : 0 < x -> (0 < Qnum x)%Z.
Proof. destruct x as [n d]. unfold Qlt. simpl. lia. Qed.

Lemma Qnum_den (x : Q) : x * inject_Z (Zpos (Qden x)) == inject_Z (Qnum x).
Proof. destruct x as [n d]. unfold Qeq, Qmult, inject_Z. simpl. lia. Qed.

(** [ilog2 x] is the exponent of the binade of [x]. *)
Lemma ilog2_le (x : Q) : 0 < x -> pow2 (ilog2 x) <= x.
Proof.
  intros Hx. unfold ilog2.
  set (ln := Z.log2 (Qnum x)). set (ld := Z.log2 (Zpos (Qden x))).
  destruct (Qle_bool (pow2 (ln - ld)) x) eqn:Hb.
  - apply Qle_bool_iff. exact Hb.
  - destruct (Z.log2_spec (Qnum x) (Qnum_pos Hx)) as [Hn1 _].
    destruct (Z.log2_spec (Zpos (Qden x)) eq_refl) as [_ Hd2].
    fold ln in Hn1. fold ld in Hd2.
    assert (Hln : (0 <= ln)%Z) by apply Z.log2_nonneg.
    assert (Hld : (0 <= ld)%Z) by apply Z.log2_nonneg.
    assert (E : pow2 (ln - ld - 1) * pow2 (ld + 1) == pow2 ln).
    { rewrite <- pow2_add. replace (ln - ld - 1 + (ld + 1))%Z with ln by lia.
      reflexivity. }
    rewrite (pow2_Z Hln) in E.
    rewrite (@pow2_Z (ld + 1)) in E by lia.
    replace (Z.succ ld) with (ld + 1)%Z in Hd2 by lia.
    pose proof (pow2_pos (ln - ld - 1)) as Hp.
    set (p := pow2 (ln - ld - 1)) in *.
    assert (Hd : inject_Z (Zpos (Qden x)) <= inject_Z (2 ^ (ld + 1))).
    { rewrite <- Zle_Qle. lia. }
    assert (Hnq : inject_Z (2 ^ ln) <= inject_Z (Qnum x)).
    { rewrite <- Zle_Qle. lia. }
    pose proof (Qnum_den x) as Hx'.
    assert (Hdpos : 0 < inject_Z (Zpos (Qden x))) by reflexivity.
    set (D := inject_Z (Zpos (Qden x))) in *.
    set (N := inject_Z (Qnum x)) in *.
    set (A := inject_Z (2 ^ (ld + 1))) in *.
    set (B := inject_Z (2 ^ ln)) in *.
    assert (H1 : p * D <= x * D).
    { rewrite Hx'. apply Qle_trans with (p * A); [| lra].
      apply Qmult_le_l; [exact Hp | exact Hd]. }
    apply Qmult_le_r in H1; assumption.
Qed.

Lemma ilog2_lt (x : Q) : 0 < x -> x < pow2 (ilog2 x + 1).
Proof.
  intros Hx. unfold ilog2.
  set (ln := Z.log2 (Qnum x)). set (ld := Z.log2 (Zpos (Qden x))).
  destruct (Qle_bool (pow2 (ln - ld)) x) eqn:Hb.
  - destruct (Z.log2_spec (Qnum x) (Qnum_pos Hx)) as [_ Hn2].
    destruct (Z.log2_spec (Zpos (Qden x)) eq_refl) as [Hd1 _].
    fold ln in Hn2. fold ld in Hd1.
    assert (Hln : (0 <= ln)%Z) by apply Z.log2_nonneg.
    assert (Hld : (0 <= ld)%Z) by apply Z.log2_nonneg.
    replace (Z.succ ln) with (ln + 1)%Z in Hn2 by lia.
    assert (E : pow2 (ln - ld + 1) * pow2 ld == pow2 (ln + 1)).
    { rewrite <- pow2_add. replace (ln - ld + 1 + ld)%Z with (ln + 1)%Z by lia.
      reflexivity. }
    rewrite (pow2_Z Hld) in E.
    rewrite (@pow2_Z (ln + 1)) in E by lia.
    pose proof (pow2_pos (ln - ld + 1)) as Hp.
    set (p := pow2 (ln - ld + 1)) in *.
    assert (Hd : inject_Z (2 ^ ld) <= inject_Z (Zpos (Qden x))).
    { rewrite <- Zle_Qle. lia. }
    assert (Hnq : inject_Z (Qnum x) < inject_Z (2 ^ (ln + 1))).
    { rewrite <- Zlt_Qlt. lia. }
    pose proof (Qnum_den x) as Hx'.
    assert (Hdpos : 0 < inject_Z (Zpos (Qden x))) by reflexivity.
    set (D := inject_Z (Zpos (Qden x))) in *.
    set (N := inject_Z (Qnum x)) in *.
    set (A := inject_Z (2 ^ ld)) in *.
    set (B := inject_Z (2 ^ (ln + 1))) in *.
    assert (H1 : x * D < p * D).
    { rewrite Hx'. apply Qlt_le_trans with (p * A); [lra|].
      apply Qmult_le_l; [exact Hp | exact Hd]. }
    apply Qmult_lt_r in H1; assumption.
  - replace (ln - ld - 1 + 1)%Z with (ln - ld)%Z by lia.
    apply Qnot_le_lt. intros H. apply Qle_bool_iff in H. congruence.
Qed.

Lemma rnd_pos_nonneg (x : Q) : 0 <= x -> 0 <= rnd_pos x.
Proof.
  intros H. unfold rnd_pos.
  pose proof (pow2_pos (ulp_exp x)) as Hp.
  apply Qmult_le_0_compat; [| lra].
  change 0 with (inject_Z 0). rewrite <- Zle_Qle. apply rne_nonneg.
  apply Qle_shift_div_l; [exact Hp | lra].
Qed.

(** Rounding keeps the sign of a non-negative value. *)
Lemma rnd_nonneg (x : Q) : 0 <= x -> 0 <= rnd x.
Proof.
  intros H. unfold rnd. destruct (Qcompare x 0) eqn:Hc.
  - lra.
  - apply Qlt_alt in Hc. lra.
  - apply rnd_pos_nonneg. exact H.
Qed.

Lemma rnd_pos_error (x : Q) :
  0 < x ->
  x - pow2 (ulp_exp x) * (1 # 2) <= rnd_pos x /\
  rnd_pos x <= x + pow2 (ulp_exp x) * (1 # 2).
Proof.
  intros Hx. unfold rnd_pos.
  pose proof (pow2_pos (ulp_exp x)) as Hp.
  set (u := pow2 (ulp_exp x)) in *.
  destruct (rne_bounds (x / u)) as [Hlo Hhi].
  set (k := inject_Z (rne (x / u))) in *.
  assert (E : x / u * u == x) by (field; lra).
  split.
  - apply Qmult_le_compat_r with (z := u) in Hlo; [| lra].
    setoid_replace ((x / u - (1 # 2)) * u) with (x / u * u - u * (1 # 2))
      in Hlo by ring.
    rewrite E in Hlo. exact Hlo.
  - apply Qmult_le_compat_r with (z := u) in Hhi; [| lra].
    setoid_replace ((x / u + (1 # 2)) * u) with (x / u * u + u * (1 # 2))
      in Hhi by ring.
    rewrite E in Hhi. exact Hhi.
Qed.

Lemma ulp_exp_le (x : Q) (E : Z) :
  0 < x -> x < pow2 (E + 1) -> (MIN_EXP + 52 <= E)%Z ->
  (ulp_exp x <= E - 52)%Z.
Proof.
  intros Hx Hlt HE. unfold ulp_exp.
  assert (ilog2 x < E + 1)%Z.
  { apply pow2_lt_inv.
    eapply Qle_lt_trans; [apply ilog2_le; exact Hx | exact Hlt]. }
  lia.
Qed.

(** Rounding moves a value below [2^(E+1)] by at most [2^(E-53)], half a
    unit in the last place of the binade of exponent [E]. *)
Lemma rnd_error (x : Q) (E : Z) :
  0 <= x -> x < pow2 (E + 1) -> (MIN_EXP + 52 <= E)%Z ->
  x - pow2 (E - 53) <= rnd x /\ rnd x <= x + pow2 (E - 53).
Proof.
  intros H0 Hlt HE. unfold rnd. destruct (Qcompare x 0) eqn:Hc.
  - apply Qeq_alt in Hc. pose proof (pow2_pos (E - 53)). lra.
  - apply Qlt_alt in Hc. lra.
  - apply Qgt_alt in Hc.
    destruct (rnd_pos_error Hc) as [Hlo Hhi].
    pose proof (ulp_exp_le Hc Hlt HE) as Hu.
    assert (Hh : pow2 (ulp_exp x) * (1 # 2) <= pow2 (E - 53)).
    { assert (E1 : pow2 (E - 53) == pow2 (E - 52) * (1 # 2)).
      { replace (E - 53)%Z with (E - 52 + -1)%Z by lia.
        rewrite pow2_add. reflexivity. }
      rewrite E1. apply pow2_le in Hu. lra. }
    split; lra.
Qed.

(** The operations keep non-negative values non-negative. *)
Lemma add_nonneg (x y : Q) : 0 <= x -> 0 <= y -> 0 <= add x y.
Proof. intros Hx Hy. apply rnd_nonneg. lra. Qed.

Lemma mul_nonneg (x y : Q) : 0 <= x -> 0 <= y -> 0 <= mul x y.
Proof. intros Hx Hy. apply rnd_nonneg, Qmult_le_0_compat; assumption. Qed.

Lemma div_nonneg (x y : Q) : 0 <= x -> 0 < y -> 0 <= div x y.
Proof.
  intros Hx Hy. apply rnd_nonneg, Qle_shift_div_l; [exact Hy|]. lra.
Qed.

End Double.

(* ------------------------------------------------------------------ *)
(** ** Math.random

    The contract of the runtime: a call returns a Number [r] with
    [0 <= r < 1].  A draw is such a value, given by its significand and
    exponent; the source of draws is a stream indexed by the number of calls
    made so far. *)

Module Rng.

Open Scope Q_scope.

(** [m * 2^e] is a binary64 value in [0, 1). *)
Definition in_range (m e : Z) : bool :=
  ((0 <=? m) && (m <? 2 ^ 53) && (Double.MIN_EXP <=? e) && (e <? 0) &&
   (m <? 2 ^ (- e)))%Z.

Record draw := mkDraw {
  mant : Z;
  expo : Z;
  is_double : in_range mant expo = true
}.

Definition val (r : draw) : Q := inject_Z (mant r) * Double.pow2 (expo r).

Definition stream := nat -> draw.

(** [Math.floor(Math.random() * n)] *)
Definition floor_scaled (r : draw) (n : Z) : Z :=
  Qfloor (Double.mul (val r) (inject_Z n)).

Arguments val : simpl never.
Arguments floor_scaled : simpl never.

Lemma Qfloor_nonneg (x : Q) : 0 <= x -> (0 <= Qfloor x)%Z.
Proof.
  intros H. change 0%Z with (Qfloor (inject_Z 0)). apply Qfloor_resp_le. exact H.
Qed.

Lemma Qfloor_below (x : Q) (n : Z) : x < inject_Z n -> (Qfloor x < n)%Z.
Proof.
  intros H. rewrite Zlt_Qlt. eapply Qle_lt_trans; [apply Qfloor_le | exact H].
Qed.

Lemma in_range_spec (r : draw) :
  (0 <= mant r < 2 ^ 53 /\ Double.MIN_EXP <= expo r < 0 /\
   mant r < 2 ^ (- expo r))%Z.
Proof.
  pose proof (is_double r) as H. unfold in_range in H.
  rewrite !andb_true_iff in H. destruct H as [[[[H1 H2] H3] H4] H5].
  apply Z.leb_le in H1, H3. apply Z.ltb_lt in H2, H4, H5. lia.
Qed.

Lemma val_nonneg (r : draw) : 0 <= val r.
Proof.
  unfold val. destruct (in_range_spec r) as [[H _] _].
  apply Qmult_le_0_compat.
  - change 0 with (inject_Z 0). rewrite <- Zle_Qle. exact H.
  - apply Qlt_le_weak, Double.pow2_pos.
Qed.

(** A draw is at most the largest value below 1. *)
Lemma val_below_pred_one (r : draw) : val r <= 1 - Double.pow2 (-53).
Proof.
  unfold val. destruct (in_range_spec r) as [[Hm0 Hm] [[He0 He] Hme]].
  set (m := mant r) in *. set (e := expo r) in *.
  pose proof (Double.pow2_pos e) as Hp.
  destruct (Z_le_gt_dec (-53) e) as [Hc|Hc].
  - assert (E1 : inject_Z (2 ^ (- e)) * Double.pow2 e == 1).
    { rewrite <- Double.pow2_Z by lia. rewrite <- Double.pow2_add.
      replace (- e + e)%Z with 0%Z by lia. reflexivity. }
    assert (Hle : inject_Z m <= inject_Z (2 ^ (- e)) - 1).
    { change 1 with (inject_Z 1). unfold Qminus.
      rewrite <- inject_Z_opp, <- inject_Z_plus, <- Zle_Qle. lia. }
    apply Qle_trans with ((inject_Z (2 ^ (- e)) - 1) * Double.pow2 e).
    + apply Qmult_le_compat_r; [exact Hle | lra].
    + pose proof (@Double.pow2_le (-53) e Hc). lra.
  - assert (Hle : inject_Z m <= Double.pow2 53).
    { rewrite Double.pow2_Z by lia. rewrite <- Zle_Qle. lia. }
    apply Qle_trans with (Double.pow2 53 * Double.pow2 e).
    + apply Qmult_le_compat_r; [exact Hle | lra].
    + rewrite <- Double.pow2_add.
      assert (H1 : Double.pow2 (53 + e) <= Double.pow2 (-1))
        by (apply Double.pow2_le; lia).
      assert (H2 : Double.pow2 (-53) <= Double.pow2 (-1))
        by (apply Double.pow2_le; lia).
      assert (H3 : Double.pow2 (-1) == 1 # 2) by reflexivity.
      lra.
Qed.

Lemma val_below_one (r : draw) : val r < 1.
Proof.
  pose proof (val_below_pred_one r). pose proof (Double.pow2_pos (-53)). lra.
Qed.

(** The rounded product with a count [n] in the binade of exponent [E] stays
    below [n]: the largest draw is [1 - 2^-53], and rounding adds at most
    [2^(E - 53)]. *)
Lemma floor_scaled_range (r : draw) (n E : Z) :
  (0 <= E)%Z -> Double.pow2 E < inject_Z n -> inject_Z n <= Double.pow2 (E + 1) ->
  (0 <= floor_scaled r n < n)%Z.
Proof.
  intros HE Hlo Hhi. unfold floor_scaled, Double.mul.
  pose proof (val_nonneg r) as H0. pose proof (val_below_pred_one r) as H1.
  pose proof (Double.pow2_pos E) as HpE.
  pose proof (Double.pow2_pos (-53)) as Hh.
  set (h := Double.pow2 (-53)) in *.
  set (x := val r * inject_Z n).
  assert (Hn : 0 < inject_Z n) by lra.
  assert (Hx0 : 0 <= x) by (apply Qmult_le_0_compat; lra).
  assert (Hx1 : x <= (1 - h) * inject_Z n).
  { apply Qmult_le_compat_r; lra. }
  assert (Hhn : Double.pow2 E * h < inject_Z n * h).
  { apply Qmult_lt_compat_r; assumption. }
  assert (Hxlt : x < Double.pow2 (E + 1)) by nra.
  destruct (@Double.rnd_error x E Hx0 Hxlt) as [_ Hr].
  { unfold Double.MIN_EXP. lia. }
  assert (E1 : Double.pow2 (E - 53) == Double.pow2 E * h).
  { unfold h. rewrite <- Double.pow2_add. reflexivity. }
  split.
  - apply Qfloor_nonneg, Double.rnd_nonneg, Hx0.
  - apply Qfloor_below. rewrite E1 in Hr. nra.
Qed.

(** The three counts of the repository: 6 charities, 8 segments, 16 digits. *)
Lemma floor_scaled_6 (r : draw) : (0 <= floor_scaled r 6 < 6)%Z.
Proof. apply (@floor_scaled_range r 6 2); [lia | reflexivity | discriminate]. Qed.

Lemma floor_scaled_8 (r : draw) : (0 <= floor_scaled r 8 < 8)%Z.
Proof. apply (@floor_scaled_range r 8 2); [lia | reflexivity | discriminate]. Qed.

Lemma floor_scaled_16 (r : draw) : (0 <= floor_scaled r 16 < 16)%Z.
Proof. apply (@floor_scaled_range r 16 3); [lia | reflexivity | discriminate]. Qed.

(** Draws used in examples: the value nearest to [num / den]. *)
Definition nearest (x : Q) : Z * Z :=
  let e := Double.ulp_exp x in (Double.rne (x / Double.pow2 e), e).

Definition draw_of (num : Z) (den : positive) : option draw :=
  let me := nearest (num # den) in
  match in_range (fst me) (snd me) as b
        return in_range (fst me) (snd me) = b -> option draw with
  | true => fun H => Some (@mkDraw (fst me) (snd me) H)
  | false => fun _ => None
  end eq_refl.

Definition zero : draw := @mkDraw 0 (-1) eq_refl.

(** The largest draw, [1 - 2^-53]. *)
Definition top : draw := @mkDraw (2 ^ 53 - 1) (-53) eq_refl.

Definition draw_or_zero (num : Z) (den : positive) : draw :=
  match draw_of num den with Some d => d | None => zero end.

Definition const_stream (d : draw) : stream := fun _ => d.

End Rng.

(* ------------------------------------------------------------------ *)
(** ** lib/walletHelper.ts *)

Module Wallet.

Open Scope string_scope.

(** The browser environment [isWalletAvailable] looks at. *)
Record Env := mkEnv {
  window_defined : bool;      (* typeof window !== 'undefined' *)
  ethereum_in_window : bool   (* 'ethereum' in window *)
}.

Definition isWalletAvailable (env : Env) (walletId : string) : bool :=
  if String.eqb walletId "metamask"
  then window_defined env && ethereum_in_window env
  else true.

Definition hex_digit (d : Z) : ascii :=
  match d with
  | 0%Z => "0" | 1%Z => "1" | 2%Z => "2" | 3%Z => "3"
  | 4%Z => "4" | 5%Z => "5" | 6%Z => "6" | 7%Z => "7"
  | 8%Z => "8" | 9%Z => "9" | 10%Z => "a" | 11%Z => "b"
  | 12%Z => "c" | 13%Z => "d" | 14%Z => "e" | _ => "f"
  end%char.

Fixpoint hex_digits (fuel : nat) (n : Z) (acc : string) : string :=
  match fuel with
  | O => acc
  | S f =>
      if (n <? 16)%Z then String (hex_digit n) acc
      else hex_digits f (n / 16)%Z (String (hex_digit (n mod 16)%Z) acc)
  end.

(** [n.toString(16)] for an integer [n]. *)
Definition toString16 (n : Z) : string :=
  if (n <? 0)%Z
  then String "-"%char (hex_digits (S (Z.to_nat (- n))) (- n)%Z "")
  else hex_digits (S (Z.to_nat n)) n "".

Record DonationResult := mkResult {
  success : bool;
  txHash : option string;
  error : option string
}.

(** The delay [sendDonation] awaits before it resolves, in milliseconds. *)
Definition SEND_DELAY : nat := 1500.

(** [Array.from({ length: 64 }, () => Math.floor(Math.random() * 16).toString(16))]:
    64 calls of [Math.random], the [k]-th call of the program first. *)
Definition hash_digits (rs : Rng.stream) (k : nat) : list string :=
  map (fun i => toString16 (Rng.floor_scaled (rs (k + i)%nat) 16)) (seq 0 64).

(** [sendDonation]: the promise it returns resolves (after [SEND_DELAY]) with
    this value; the body has no [throw] and no rejecting path. *)
Definition sendDonation (rs : Rng.stream) (k : nat)
    (walletId recipientAddress : string) (amount : Q) : DonationResult :=
  let txHash := "0x" ++ String.concat "" (hash_digits rs k) in
  {| success := true; txHash := Some txHash; error := None |}.

Definition is_hex_char (c : ascii) : bool :=
  let n := nat_of_ascii c in
  (((48 <=? n) && (n <=? 57)) || ((97 <=? n) && (n <=? 102)))%nat.

Fixpoint all_chars (p : ascii -> bool) (s : string) : bool :=
  match s with
  | EmptyString => true
  | String c r => p c && all_chars p r
  end.

End Wallet.

(* ------------------------------------------------------------------ *)
(** ** app/page.tsx: the state of [Home] and its handlers *)

Module Root.

Import Data.

(** The five [useState] slots.  The charity slot is declared with type
    [Charity], yet the render guard tests it for truthiness; it is kept as an
    optional value here so that its presence is a property of the handlers and
    not of the model's typing.  A receipt is a nullable string. *)
Record State := mkState {
  isSpinning : bool;
  selectedAmount : option Q;
  selectedCharity : option Charity;
  showModal : bool;
  txHash : option string
}.

Definition initial : State :=
  {| isSpinning := false;
     selectedAmount := None;
     selectedCharity := Some CHARITIES_0;
     showModal := false;
     txHash := None |}.

Definition handleSpinComplete (amount : Q) (s : State) : State :=
  {| isSpinning := isSpinning s;
     selectedAmount := Some amount;
     selectedCharity := selectedCharity s;
     showModal := true;
     txHash := txHash s |}.

Definition handleCharitySelected (charity : Charity) (s : State) : State :=
  {| isSpinning := isSpinning s;
     selectedAmount := selectedAmount s;
     selectedCharity := Some charity;
     showModal := showModal s;
     txHash := txHash s |}.

(** The delay of the timeout [handleStartSpin] schedules. *)
Definition SPIN_DURATION : nat := 4000.

(** [handleStartSpin]: the new state and whether the 4000 ms timeout was
    scheduled.  The handler's own guard is [isSpinning] alone. *)
Definition handleStartSpin (s : State) : State * bool :=
  if isSpinning s then (s, false)
  else ({| isSpinning := true;
           selectedAmount := None;
           selectedCharity := selectedCharity s;
           showModal := false;
           txHash := None |}, true).

(** The callback of that timeout. *)
Definition spinTimeout (s : State) : State :=
  {| isSpinning := false;
     selectedAmount := selectedAmount s;
     selectedCharity := selectedCharity s;
     showModal := showModal s;
     txHash := txHash s |}.

Definition handleDonationComplete (hash : string) (s : State) : State :=
  {| isSpinning := isSpinning s;
     selectedAmount := selectedAmount s;
     selectedCharity := selectedCharity s;
     showModal := showModal s;
     txHash := Some hash |}.

Definition handleCloseModal (s : State) : State :=
  {| isSpinning := isSpinning s;
     selectedAmount := selectedAmount s;
     selectedCharity := selectedCharity s;
     showModal := false;
     txHash := txHash s |}.

Definition is_some {A} (o : option A) : bool :=
  match o with Some _ => true | None => false end.

(** [showModal && selectedAmount !== null && selectedCharity]: whether
    [<DonationModal>] is in the rendered tree. *)
Definition dialog_rendered (s : State) : bool :=
  showModal s && is_some (selectedAmount s) && is_some (selectedCharity s).

(** [disabled={isSpinning || showModal}] on the spin button. *)
Definition spin_button_disabled (s : State) : bool :=
  isSpinning s || showModal s.

(** A click on the spin button: a disabled button dispatches no click, an
    enabled one runs [handleStartSpin]. *)
Definition clickSpin (s : State) : State * bool :=
  if spin_button_disabled s then (s, false) else handleStartSpin s.

(** [Object.is] on the five slots: whether a render of [Home] sees a change. *)
Definition option_eqb {A} (eqb : A -> A -> bool) (a b : option A) : bool :=
  match a, b with
  | Some x, Some y => eqb x y
  | None, None => true
  | _, _ => false
  end.

Definition Q_same (a b : Q) : bool :=
  Z.eqb (Qnum a) (Qnum b) && Pos.eqb (Qden a) (Qden b).

Definition state_eqb (a b : State) : bool :=
  Bool.eqb (isSpinning a) (isSpinning b) &&
  option_eqb Q_same (selectedAmount a) (selectedAmount b) &&
  option_eqb charity_eqb (selectedCharity a) (selectedCharity b) &&
  Bool.eqb (showModal a) (showModal b) &&
  option_eqb String.eqb (txHash a) (txHash b).

End Root.

(* ------------------------------------------------------------------ *)
(** ** Timers

    A pending [setTimeout]/[setInterval]: the time it is due, the value its
    callback closed over, and a ghost label, the number of the spin session
    in which it was scheduled (the code keeps no such label; it tells the
    timers of one spin from those of another). *)

Module Timer.

Record t (A : Type) := mk {
  due : nat;
  session : nat;
  payload : A
}.

Definition due_of {A} (o : option (t A)) : option nat :=
  match o with Some x => Some (due x) | None => None end.

End Timer.

(* ------------------------------------------------------------------ *)
(** ** components/DonationSpinner.tsx *)

Module Spinner.

Import Data.
Open Scope Q_scope.

Definition segments : list Q := DONATION_AMOUNTS.
Definition segmentCount : Z := Z.of_nat (List.length segments).
Definition segmentAngle : Q := Double.div 360 (inject_Z segmentCount).

(** [Math.trunc] and the remainder [x % m] of JavaScript numbers (the result
    has the sign of the dividend).  The remainder of two values is a value
    again, so [%] does not round. *)
Definition Qtrunc (x : Q) : Z :=
  if Qle_bool 0 x then Qfloor x else Qceiling x.

Definition js_rem (x m : Q) : Q := x - m * inject_Z (Qtrunc (x / m)).

(** [5 + Math.random() * 5] rotations plus [randomSegment * segmentAngle],
    starting from [lastSpinRef.current], which the effect has just set to 0. *)
Definition newRotation (r1 r2 : Rng.draw) : Q :=
  let spinRotations := Double.add 5 (Double.mul (Rng.val r1) 5) in
  let randomSegment := Rng.floor_scaled r2 segmentCount in
  let randomAngle := Double.mul (inject_Z randomSegment) segmentAngle in
  Double.add (Double.add 0 (Double.mul spinRotations 360)) randomAngle.

Definition landedSegmentIndex (r1 r2 : Rng.draw) : Z :=
  let normalizedRotation := js_rem (newRotation r1 r2) 360 in
  Qfloor (Double.div normalizedRotation segmentAngle).

(** [segments[i]] for an index the code has reduced modulo [segmentCount].
    Reading outside the array gives [undefined] in JavaScript; the default
    below stands for it and [segment_index_in_range] shows it is never
    taken. *)
Definition segment_at (i : Z) : Q := nth (Z.to_nat i) segments 0.

Definition selectedSegment (r1 r2 : Rng.draw) : Q :=
  segment_at (Z.rem (landedSegmentIndex r1 r2) segmentCount).

Arguments newRotation : simpl never.
Arguments landedSegmentIndex : simpl never.
Arguments selectedSegment : simpl never.

(** The value the 100 ms interval shows, from [Date.now()]. *)
Definition tickerIndex (now : nat) : Z :=
  let currentRotation :=
    Double.mul (Double.div (inject_Z (Z.of_nat (now mod 1000))) 1000) 360 in
  Z.rem (Qfloor (Double.div currentRotation segmentAngle)) segmentCount.

Arguments tickerIndex : simpl never.

Definition TICK : nat := 100.
Definition REVEAL_DELAY : nat := 3900.

(** Component state: the [useState] slots, [lastSpinRef], and the two timer
    refs.  A ref is modelled by the pending timer it names: clearing an id
    that has already fired does nothing. *)
Record State := mkState {
  selectedAmount : option Q;
  revealingAmount : bool;
  lastSpinRef : Q;
  spinIntervalRef : option (Timer.t unit);
  spinTimeoutRef : option (Timer.t Q)
}.

Definition initial : State :=
  {| selectedAmount := None; revealingAmount := false; lastSpinRef := 0;
     spinIntervalRef := None; spinTimeoutRef := None |}.

(** The cleanup function of the effect (also what unmounting runs). *)
Definition cleanup (s : State) : State :=
  {| selectedAmount := selectedAmount s;
     revealingAmount := revealingAmount s;
     lastSpinRef := lastSpinRef s;
     spinIntervalRef := None;
     spinTimeoutRef := None |}.

(** The effect body, run at time [now] in session [ses] with the next two
    draws.  The writes to the style of the wheel are not modelled. *)
Definition effect (isSpinning : bool) (now ses : nat) (r1 r2 : Rng.draw)
    (s : State) : State :=
  let s := cleanup s in
  if isSpinning then
    {| selectedAmount := None;
       revealingAmount := false;
       lastSpinRef := newRotation r1 r2;
       spinIntervalRef := Some (Timer.mk (now + TICK) ses tt);
       spinTimeoutRef :=
         Some (Timer.mk (now + REVEAL_DELAY) ses (selectedSegment r1 r2)) |}
  else s.

(** Number of [Math.random] calls the effect makes. *)
Definition draws (isSpinning : bool) : nat := if isSpinning then 2 else 0.

(** One firing of the interval at time [now]. *)
Definition intervalTick (now : nat) (tm : Timer.t unit) (s : State) : State :=
  {| selectedAmount := Some (segment_at (tickerIndex now));
     revealingAmount := revealingAmount s;
     lastSpinRef := lastSpinRef s;
     spinIntervalRef :=
       Some (Timer.mk (Timer.due tm + TICK) (Timer.session tm) tt);
     spinTimeoutRef := spinTimeoutRef s |}.

(** The firing of the timeout: the new state and the argument it passes to
    [onSpinComplete]. *)
Definition revealTimeout (tm : Timer.t Q) (s : State) : State * Q :=
  ({| selectedAmount := Some (Timer.payload tm);
      revealingAmount := true;
      lastSpinRef := lastSpinRef s;
      spinIntervalRef := None;
      spinTimeoutRef := None |}, Timer.payload tm).

End Spinner.

(* ------------------------------------------------------------------ *)
(** ** components/CharityPicker.tsx *)

Module Picker.

Import Data.

Definition charityCount : Z := Z.of_nat (List.length CHARITIES).

(** [CHARITIES[i]]; the default stands for [undefined], see
    [charity_index_in_range]. *)
Definition charity_at (i : Z) : Charity := nth (Z.to_nat i) CHARITIES CHARITIES_0.

(** [CHARITIES[Math.floor(Math.random() * CHARITIES.length)]] *)
Definition drawCharity (r : Rng.draw) : Charity :=
  charity_at (Rng.floor_scaled r charityCount).

Arguments drawCharity : simpl never.

Definition TICK : nat := 100.
Definition REVEAL_DELAY : nat := 4000.

(** Component state; [spinInterval] and [revealTimeout] are the two local
    variables of the running effect instance, which only its own cleanup
    can reach. *)
Record State := mkState {
  currentIndex : Z;
  revealingCharity : bool;
  finalCharity : option Charity;
  spinInterval : option (Timer.t unit);
  revealTimeout : option (Timer.t Charity)
}.

Definition initial : State :=
  {| currentIndex := 0; revealingCharity := false; finalCharity := None;
     spinInterval := None; revealTimeout := None |}.

Definition cleanup (s : State) : State :=
  {| currentIndex := currentIndex s;
     revealingCharity := revealingCharity s;
     finalCharity := finalCharity s;
     spinInterval := None;
     revealTimeout := None |}.

Definition effect (isSpinning : bool) (now ses : nat) (r : Rng.draw)
    (s : State) : State :=
  if isSpinning then
    {| currentIndex := currentIndex s;
       revealingCharity := false;
       finalCharity := Some (drawCharity r);
       spinInterval := Some (Timer.mk (now + TICK) ses tt);
       revealTimeout := Some (Timer.mk (now + REVEAL_DELAY) ses (drawCharity r)) |}
  else s.

Definition draws (isSpinning : bool) : nat := if isSpinning then 1 else 0.

Definition intervalTick (tm : Timer.t unit) (s : State) : State :=
  {| currentIndex := Z.rem (currentIndex s + 1) charityCount;
     revealingCharity := revealingCharity s;
     finalCharity := finalCharity s;
     spinInterval := Some (Timer.mk (Timer.due tm + TICK) (Timer.session tm) tt);
     revealTimeout := revealTimeout s |}.

(** The firing of the reveal timeout: it does not clear the interval. *)
Definition revealFire (tm : Timer.t Charity) (s : State) : State * Charity :=
  ({| currentIndex := currentIndex s;
      revealingCharity := true;
      finalCharity := finalCharity s;
      spinInterval := spinInterval s;
      revealTimeout := None |}, Timer.payload tm).

(** The text the component renders. *)
Definition display (isSpinning : bool) (s : State) : String.string :=
  if isSpinning then name (charity_at (currentIndex s))
  else match finalCharity s with
       | Some c => name c
       | None => name CHARITIES_0
       end.

End Picker.

(* ------------------------------------------------------------------ *)
(** ** components/DonationModal.tsx *)

Module Modal.

Import Data.
Open Scope string_scope.

(** JavaScript truthiness of a nullable string: [null], [undefined] and the
    empty string are falsy. *)
Definition truthy (o : option string) : bool :=
  match o with
  | Some EmptyString => false
  | Some _ => true
  | None => false
  end.

Record State := mkState {
  modalCharity : Charity;
  isProcessing : bool;
  error : option string;
  availableWallets : list Wallet
}.

(** State at mount, before the effects have run. *)
Definition mount (charity : Charity) : State :=
  {| modalCharity := charity; isProcessing := false; error := None;
     availableWallets := wallets |}.

(** The mount effect [checkWallets]. *)
Definition checkWallets (env : Wallet.Env) (s : State) : State :=
  {| modalCharity := modalCharity s;
     isProcessing := isProcessing s;
     error := error s;
     availableWallets :=
       filter (fun w => Wallet.isWalletAvailable env (wid w)) wallets |}.

(** The effect on the [charity] prop. *)
Definition syncCharity (charity : Charity) (s : State) : State :=
  {| modalCharity := charity;
     isProcessing := isProcessing s;
     error := error s;
     availableWallets := availableWallets s |}.

(** What the awaited promise of [sendDonation] can do: resolve with a result,
    or reject with a thrown value, an [Error] with its message or anything
    else. *)
Inductive thrown :=
| ErrorObject (message : string)
| OtherValue.

Inductive outcome :=
| Resolved (r : Wallet.DonationResult)
| Rejected (e : thrown).

(** [handleDonateWithWallet], up to the [await]: the state shown while the
    promise is pending and the arguments of the one [sendDonation] call. *)
Definition handleDonateWithWallet_begin (walletId : string) (amount : Q)
    (s : State) : State * (string * string * Q) :=
  ({| modalCharity := modalCharity s;
      isProcessing := true;
      error := None;
      availableWallets := availableWallets s |},
   (walletId, walletAddress (modalCharity s), amount)).

(** [result.error || 'Transaction failed'] *)
Definition error_or_default (e : option string) : string :=
  if truthy e then match e with Some m => m | None => "" end
  else "Transaction failed".

(** The value caught by [catch (err)], if any, once the promise settles; the
    [else] branch throws an [Error] itself. *)
Definition caught (o : outcome) : option thrown :=
  match o with
  | Rejected e => Some e
  | Resolved r =>
      if Wallet.success r && truthy (Wallet.txHash r) then None
      else Some (ErrorObject (error_or_default (Wallet.error r)))
  end.

(** [err instanceof Error ? err.message : 'Transaction failed. Please try again.'] *)
Definition message_of (e : thrown) : string :=
  match e with
  | ErrorObject m => m
  | OtherValue => "Transaction failed. Please try again."
  end.

(** [handleDonateWithWallet], from the [await] on: the new state and the
    argument of [onDonationComplete] when it is called. *)
Definition handleDonateWithWallet_end (o : outcome) (s : State)
    : State * option string :=
  match caught o with
  | None =>
      ({| modalCharity := modalCharity s; isProcessing := false;
          error := error s; availableWallets := availableWallets s |},
       match o with Resolved r => Wallet.txHash r | Rejected _ => None end)
  | Some e =>
      ({| modalCharity := modalCharity s; isProcessing := false;
          error := Some (message_of e); availableWallets := availableWallets s |},
       None)
  end.

(** The onClick of the "Try Again" control: [setError(null)], nothing else. *)
Definition tryAgain (s : State) : State :=
  {| modalCharity := modalCharity s; isProcessing := isProcessing s;
     error := None; availableWallets := availableWallets s |}.

(** The four views of the dialog body. *)
Inductive view :=
| Complete (hash : string)           (* "Donation Complete!", the hash, Close *)
| Processing                         (* "Processing your donation..." *)
| ErrorView (message : string)       (* the message and "Try Again" *)
| WalletList (ws : list Wallet).     (* one button per wallet, Cancel *)

Definition render (txHash : option string) (s : State) : view :=
  if truthy txHash then
    Complete match txHash with Some h => h | None => "" end
  else if isProcessing s then Processing
  else if truthy (error s) then
    ErrorView match error s with Some m => m | None => "" end
  else WalletList (availableWallets s).

End Modal.

(* ------------------------------------------------------------------ *)
(** ** The mounted page

    [Home] owns the five state slots and renders [CharityPicker] and
    [DonationSpinner] with [isSpinning] and a callback each.  The callbacks
    ([handleCharitySelected], [handleSpinComplete]) are arrow functions
    written in the body of [Home], so every render of [Home] makes new ones;
    both selectors list their callback among the dependencies of their
    effect.  Hence whenever a render of [Home] follows a change of one of its
    slots, React runs the cleanup of both effects and then both effects again
    (with the current [isSpinning]).  A state change inside a selector
    renders that selector alone and re-runs nothing.

    Source places: the handlers, page.tsx lines 26-37; the dependency lists,
    CharityPicker.tsx line 45 ([isSpinning, onCharitySelected]) and the
    [useEffect] of DonationSpinner ([..., onSpinComplete]).

    A click is a discrete event: React renders, and runs the effects of
    that render, before the event is over.  The callback of a timer and the
    continuation of a donation only queue their updates of the slots; the
    render that shows them is a step of its own ([Render]) and callbacks that
    are already due (a late batch of timers, as in a background tab) may run
    before it.  Timers run in the order of their due times, possibly late;
    timers due at the same time run in any order.  No step but [Wait] and a
    late timer moves the clock. *)
Module App.

Import Data.
Local Open Scope nat_scope.

(** What has happened so far (ghost, oldest first): calls of the handlers of
    [Home]. *)
Inductive event :=
| Started                          (* handleStartSpin past its guard *)
| AmountReported (a : Q)           (* handleSpinComplete(a) *)
| CharityReported (c : Charity)    (* handleCharitySelected(c) *)
| Closed                           (* handleCloseModal() *)
| ReceiptReported (h : string)     (* handleDonationComplete(h) *)
| Stopped.                         (* the 4000 ms timeout of handleStartSpin *)

Record State := mkState {
  now : nat;                              (* the clock, ms *)
  root : Root.State;                      (* the slots, queued updates applied *)
  shown : Root.State;                     (* the slots as last rendered *)
  rootTimers : list (Timer.t unit);       (* pending timeouts of handleStartSpin *)
  spinner : Spinner.State;
  picker : Picker.State;
  calls : nat;                            (* Math.random calls made so far *)
  session : nat;                          (* ghost: spins started so far *)
  history : list event                    (* ghost *)
}.

Definition initial : State :=
  {| now := 0; root := Root.initial; shown := Root.initial; rootTimers := [];
     spinner := Spinner.initial; picker := Picker.initial;
     calls := 0; session := 0; history := [] |}.

Section WithRandomness.

Variable rs : Rng.stream.

(** A render of [Home]: cleanup and re-run of both effects, the picker first
    (it comes first in the tree). *)
Definition runEffects (s : State) : State :=
  let b := Root.isSpinning (root s) in
  let c0 := calls s in
  let c1 := (c0 + Picker.draws b)%nat in
  {| now := now s;
     root := root s;
     shown := root s;
     rootTimers := rootTimers s;
     spinner :=
       Spinner.effect b (now s) (session s) (rs c1) (rs (S c1))
         (Spinner.cleanup (spinner s));
     picker :=
       Picker.effect b (now s) (session s) (rs c0) (Picker.cleanup (picker s));
     calls := (c1 + Spinner.draws b)%nat;
     session := session s;
     history := history s |}.

(** React renders [Home] again only if a slot differs from what it last
    rendered. *)
Definition flush (s : State) : State :=
  if Root.state_eqb (shown s) (root s) then s else runEffects s.

Inductive timer_id :=
| RootTimeout | SpinnerInterval | SpinnerTimeout | PickerInterval | PickerTimeout.

Inductive label :=
| ClickSpin                 (* a click on the spin button *)
| CloseModal                (* overlay, Cancel or Close of the dialog *)
| Receipt (h : string)      (* the dialog calls onDonationComplete(h) *)
| Fire (t : timer_id)       (* the browser runs a due timer *)
| Render                    (* React renders the queued updates *)
| Wait (d : nat).           (* time passes *)

Definition opt_list {A} (o : option A) : list A :=
  match o with Some x => [x] | None => [] end.

(** Due times of everything pending. *)
Definition dues (s : State) : list nat :=
  map (@Timer.due unit) (rootTimers s) ++
  opt_list (Timer.due_of (Spinner.spinIntervalRef (spinner s))) ++
  opt_list (Timer.due_of (Spinner.spinTimeoutRef (spinner s))) ++
  opt_list (Timer.due_of (Picker.spinInterval (picker s))) ++
  opt_list (Timer.due_of (Picker.revealTimeout (picker s))).

(** Timers run in the order of their due times (possibly late). *)
Definition earliest (d : nat) (s : State) : bool :=
  forallb (fun x => d <=? x) (dues s).

Definition with_root (r : Root.State) (ev : list event) (s : State) : State :=
  {| now := now s; root := r; shown := shown s; rootTimers := rootTimers s;
     spinner := spinner s; picker := picker s; calls := calls s;
     session := session s; history := history s ++ ev |}.

Definition at_time (t : nat) (s : State) : State :=
  {| now := t; root := root s; shown := shown s; rootTimers := rootTimers s;
     spinner := spinner s; picker := picker s; calls := calls s;
     session := session s; history := history s |}.

(** A click on the spin button.  Updates still queued are rendered first
    (the click then meets the page a render would show); the handler runs and
    React renders at once. *)
Definition clickSpin (s : State) : State :=
  match Root.clickSpin (root s) with
  | (r, true) =>
      let s0 := flush s in
      flush
        {| now := now s0; root := r; shown := shown s0;
           rootTimers :=
             rootTimers s0 ++
             [Timer.mk (now s0 + Root.SPIN_DURATION) (S (session s0)) tt];
           spinner := spinner s0; picker := picker s0; calls := calls s0;
           session := S (session s0);
           history := history s0 ++ [Started] |}
  | (_, false) => s
  end.

Definition closeModal (s : State) : State :=
  let s0 := flush s in
  flush (with_root (Root.handleCloseModal (root s0)) [Closed] s0).

Definition receipt (h : string) (s : State) : State :=
  with_root (Root.handleDonationComplete h (root s)) [ReceiptReported h] s.

Definition fireRoot (tm : Timer.t unit) (rest : list (Timer.t unit))
    (s : State) : State :=
  {| now := Nat.max (now s) (Timer.due tm);
     root := Root.spinTimeout (root s); shown := shown s; rootTimers := rest;
     spinner := spinner s; picker := picker s; calls := calls s;
     session := session s; history := history s ++ [Stopped] |}.

Definition fireSpinnerInterval (tm : Timer.t unit) (s : State) : State :=
  let t := Nat.max (now s) (Timer.due tm) in
  {| now := t; root := root s; shown := shown s; rootTimers := rootTimers s;
     spinner := Spinner.intervalTick t tm (spinner s);
     picker := picker s; calls := calls s;
     session := session s; history := history s |}.

Definition fireSpinnerTimeout (tm : Timer.t Q) (s : State) : State :=
  let t := Nat.max (now s) (Timer.due tm) in
  let (sp, amount) := Spinner.revealTimeout tm (spinner s) in
  {| now := t; root := Root.handleSpinComplete amount (root s);
     shown := shown s; rootTimers := rootTimers s;
     spinner := sp; picker := picker s; calls := calls s;
     session := session s;
     history := history s ++ [AmountReported amount] |}.

Definition firePickerInterval (tm : Timer.t unit) (s : State) : State :=
  {| now := Nat.max (now s) (Timer.due tm); root := root s; shown := shown s;
     rootTimers := rootTimers s; spinner := spinner s;
     picker := Picker.intervalTick tm (picker s); calls := calls s;
     session := session s; history := history s |}.

Definition firePickerTimeout (tm : Timer.t Charity) (s : State) : State :=
  let t := Nat.max (now s) (Timer.due tm) in
  let (pk, charity) := Picker.revealFire tm (picker s) in
  {| now := t; root := Root.handleCharitySelected charity (root s);
     shown := shown s; rootTimers := rootTimers s;
     spinner := spinner s; picker := pk; calls := calls s;
     session := session s;
     history := history s ++ [CharityReported charity] |}.

Definition guard (b : bool) (s : State) : option State :=
  if b then Some s else None.

(** One step; [None] when the label is not possible in [s]: a dialog control
    needs the dialog, a timer must be pending and first in line. *)
Definition step (l : label) (s : State) : option State :=
  match l with
  | ClickSpin => Some (clickSpin s)
  | CloseModal => guard (Root.dialog_rendered (root s)) (closeModal s)
  | Receipt h => Some (receipt h s)
  | Render => Some (flush s)
  | Wait d => Some (at_time (now s + d) s)
  | Fire RootTimeout =>
      match rootTimers s with
      | tm :: rest => guard (earliest (Timer.due tm) s) (fireRoot tm rest s)
      | [] => None
      end
  | Fire SpinnerInterval =>
      match Spinner.spinIntervalRef (spinner s) with
      | Some tm => guard (earliest (Timer.due tm) s) (fireSpinnerInterval tm s)
      | None => None
      end
  | Fire SpinnerTimeout =>
      match Spinner.spinTimeoutRef (spinner s) with
      | Some tm => guard (earliest (Timer.due tm) s) (fireSpinnerTimeout tm s)
      | None => None
      end
  | Fire PickerInterval =>
      match Picker.spinInterval (picker s) with
      | Some tm => guard (earliest (Timer.due tm) s) (firePickerInterval tm s)
      | None => None
      end
  | Fire PickerTimeout =>
      match Picker.revealTimeout (picker s) with
      | Some tm => guard (earliest (Timer.due tm) s) (firePickerTimeout tm s)
      | None => None
      end
  end.

Fixpoint steps (tr : list label) (s : State) : option State :=
  match tr with
  | [] => Some s
  | l :: tr' =>
      match step l s with
      | Some s' => steps tr' s'
      | None => None
      end
  end.

Definition reachable (s : State) : Prop :=
  exists tr, steps tr initial = Some s.

(** A spin on a page that renders promptly: after the click both intervals
    tick 38 times, the spinner's timeout runs at 3900 ms and [Home] renders,
    the root's timeout runs at 4000 ms and [Home] renders. *)
Fixpoint ticks (n : nat) : list label :=
  match n with
  | O => []
  | S k => Fire SpinnerInterval :: Fire PickerInterval :: ticks k
  end.

Definition until_reveal : list label :=
  ticks 38 ++ [Fire SpinnerTimeout; Render].
Definition spin_cycle : list label :=
  ClickSpin :: until_reveal ++ [Fire RootTimeout; Render].

(** A spin whose last timers run as one late batch (the page was in the
    background, say): the callbacks due at 3900 ms and at 4000 ms run one
    after the other, before React renders. *)
Definition late_batch : list label :=
  ticks 38 ++
  [Fire SpinnerTimeout; Fire PickerInterval; Fire RootTimeout;
   Fire PickerTimeout; Render].

End WithRandomness.

End App.

(* ------------------------------------------------------------------ *)
(** * Properties *)

(** ** Selection arithmetic *)
Module SelectionFacts.

Import Data.
Open Scope Q_scope.

Lemma segmentCount_eq : Spinner.segmentCount = 8%Z.
Proof. reflexivity. Qed.

Lemma charityCount_eq : Picker.charityCount = 6%Z.
Proof. reflexivity. Qed.

Lemma Qtrunc_nonneg_le (x : Q) : 0 <= x -> inject_Z (Spinner.Qtrunc x) <= x.
Proof.
  intros H. unfold Spinner.Qtrunc.
  destruct (Qle_bool 0 x) eqn:E.
  - apply Qfloor_le.
  - apply Qle_bool_iff in H. congruence.
Qed.

Lemma Qtrunc_nonneg_gt (x : Q) : 0 <= x -> x < inject_Z (Spinner.Qtrunc x + 1).
Proof.
  intros H. unfold Spinner.Qtrunc.
  destruct (Qle_bool 0 x) eqn:E.
  - apply Qlt_floor.
  - apply Qle_bool_iff in H. congruence.
Qed.

(** For a non-negative dividend and a positive modulus the remainder lies in
    [0, m). *)
Lemma js_rem_range (x m : Q) :
  0 <= x -> 0 < m -> 0 <= Spinner.js_rem x m /\ Spinner.js_rem x m < m.
Proof.
  intros Hx Hm. unfold Spinner.js_rem.
  assert (Hq : 0 <= x / m).
  { apply Qle_shift_div_l; [exact Hm|]. setoid_replace (0 * m) with 0 by ring. exact Hx. }
  pose proof (Qtrunc_nonneg_le Hq) as Hlo.
  pose proof (Qtrunc_nonneg_gt Hq) as Hhi.
  set (k := Spinner.Qtrunc (x / m)) in *.
  assert (Hm' : ~ m == 0) by (intro E; rewrite E in Hm; discriminate).
  assert (Hxm : m * (x / m) == x) by (field; exact Hm').
  split.
  - assert (H : m * inject_Z k <= x).
    { eapply Qle_trans; [|apply Qle_lteq; right; exact Hxm].
      apply Qmult_le_l; assumption. }
    apply (Qplus_le_l _ _ (m * inject_Z k)). ring_simplify. exact H.
  - assert (H : x < m * inject_Z (k + 1)).
    { eapply Qle_lt_trans; [apply Qle_lteq; right; symmetry; exact Hxm|].
      apply Qmult_lt_l; assumption. }
    rewrite inject_Z_plus in H.
    apply (Qplus_lt_l _ _ (m * inject_Z k)). ring_simplify.
    setoid_replace (m * inject_Z k + m) with (m * (inject_Z k + inject_Z 1)) by ring.
    exact H.
Qed.

Lemma segmentAngle_pos : 0 < Spinner.segmentAngle.
Proof. reflexivity. Qed.

(** Statements about the results of the arithmetic are declared without
    inferring implicit arguments. *)
Unset Implicit Arguments.

Lemma randomSegment_nonneg (r2 : Rng.draw) :
  0 <= inject_Z (Rng.floor_scaled r2 Spinner.segmentCount).
Proof.
  change 0 with (inject_Z 0). rewrite <- Zle_Qle.
  apply (Rng.floor_scaled_8 r2).
Qed.

Lemma randomAngle_nonneg (r2 : Rng.draw) :
  0 <= Double.mul (inject_Z (Rng.floor_scaled r2 Spinner.segmentCount))
         Spinner.segmentAngle.
Proof.
  apply Double.mul_nonneg; [|apply Qlt_le_weak, segmentAngle_pos].
  apply randomSegment_nonneg.
Qed.

Lemma turns_nonneg (r1 : Rng.draw) :
  0 <= Double.add 0 (Double.mul (Double.add 5 (Double.mul (Rng.val r1) 5)) 360).
Proof.
  apply Double.add_nonneg; [apply Qle_refl|].
  apply Double.mul_nonneg; [|discriminate].
  apply Double.add_nonneg; [discriminate|].
  apply Double.mul_nonneg; [apply Rng.val_nonneg|discriminate].
Qed.

Lemma newRotation_nonneg (r1 r2 : Rng.draw) : 0 <= Spinner.newRotation r1 r2.
Proof.
  cbv beta zeta delta [Spinner.newRotation].
  apply Double.add_nonneg; [apply turns_nonneg|apply randomAngle_nonneg].
Qed.

Lemma normalizedRotation_nonneg (r1 r2 : Rng.draw) :
  0 <= Spinner.js_rem (Spinner.newRotation r1 r2) 360.
Proof. apply (@js_rem_range _ 360 (newRotation_nonneg r1 r2) eq_refl). Qed.

(** The landed index is not negative: the final [% segmentCount] brings it
    into the table. *)
Lemma landedSegmentIndex_nonneg (r1 r2 : Rng.draw) :
  (0 <= Spinner.landedSegmentIndex r1 r2)%Z.
Proof.
  cbv beta zeta delta [Spinner.landedSegmentIndex].
  apply Rng.Qfloor_nonneg. apply Double.div_nonneg; [|exact segmentAngle_pos].
  apply normalizedRotation_nonneg.
Qed.

Lemma segment_index_in_range (r1 r2 : Rng.draw) :
  (0 <= Z.rem (Spinner.landedSegmentIndex r1 r2) Spinner.segmentCount < 8)%Z.
Proof.
  rewrite segmentCount_eq. apply Z.rem_bound_pos; [|lia].
  apply landedSegmentIndex_nonneg.
Qed.

Lemma segment_at_in (i : Z) :
  (0 <= i < 8)%Z -> In (Spinner.segment_at i) DONATION_AMOUNTS.
Proof.
  intros H. unfold Spinner.segment_at, Spinner.segments.
  apply nth_In. simpl. lia.
Qed.

Lemma selectedSegment_in (r1 r2 : Rng.draw) :
  In (Spinner.selectedSegment r1 r2) DONATION_AMOUNTS.
Proof. apply segment_at_in, segment_index_in_range. Qed.

Lemma charity_at_in (i : Z) :
  (0 <= i < 6)%Z -> In (Picker.charity_at i) CHARITIES.
Proof.
  intros H. unfold Picker.charity_at. apply nth_In. simpl. lia.
Qed.

Lemma charity_index_in_range (r : Rng.draw) :
  (0 <= Rng.floor_scaled r Picker.charityCount < 6)%Z.
Proof. apply Rng.floor_scaled_6. Qed.

Lemma drawCharity_in (r : Rng.draw) : In (Picker.drawCharity r) CHARITIES.
Proof. apply charity_at_in, charity_index_in_range. Qed.

Set Implicit Arguments.

End SelectionFacts.

(** ** A selector on its own

    What each selector does when nothing tears its effect down between the
    start of the spin and its timeout. *)

Module SelectorFacts.

Import Data.

(** The picker, left alone for 4000 ms: the timeout set up by the effect
    carries the charity drawn at the start, shown as the final charity; its
    firing passes that charity to the callback and leaves no timeout behind,
    so the callback is not called again; the interval is still pending (it
    is the cleanup that clears it). *)
Lemma picker_alone_reports_its_draw (now ses : nat) (r : Rng.draw) (p : Picker.State) :
  let p1 := Picker.effect true now ses r (Picker.cleanup p) in
  Picker.revealTimeout p1 =
    Some (Timer.mk (now + 4000) ses (Picker.drawCharity r)) /\
  Picker.finalCharity p1 = Some (Picker.drawCharity r) /\
  forall tm, Picker.revealTimeout p1 = Some tm ->
    snd (Picker.revealFire tm p1) = Picker.drawCharity r /\
    Picker.revealTimeout (fst (Picker.revealFire tm p1)) = None /\
    Picker.spinInterval (fst (Picker.revealFire tm p1)) <> None.
Proof.
  simpl. split; [reflexivity|]. split; [reflexivity|].
  intros tm H. injection H as <-. simpl. repeat split. discriminate.
Qed.

(** The interval ticks of the picker change the index shown and nothing
    else: the charity to be revealed does not depend on them. *)
Lemma picker_tick_keeps_draw (tm : Timer.t unit) (p : Picker.State) :
  Picker.finalCharity (Picker.intervalTick tm p) = Picker.finalCharity p /\
  Picker.revealTimeout (Picker.intervalTick tm p) = Picker.revealTimeout p.
Proof. split; reflexivity. Qed.

(** The spinner, left alone for 3900 ms: its timeout carries the segment
    computed at the start and its firing clears both timers. *)
Lemma spinner_alone_reports_its_segment
    (now ses : nat) (r1 r2 : Rng.draw) (p : Spinner.State) :
  let p1 := Spinner.effect true now ses r1 r2 p in
  Spinner.spinTimeoutRef p1 =
    Some (Timer.mk (now + 3900) ses (Spinner.selectedSegment r1 r2)) /\
  forall tm, Spinner.spinTimeoutRef p1 = Some tm ->
    snd (Spinner.revealTimeout tm p1) = Spinner.selectedSegment r1 r2 /\
    Spinner.spinTimeoutRef (fst (Spinner.revealTimeout tm p1)) = None /\
    Spinner.spinIntervalRef (fst (Spinner.revealTimeout tm p1)) = None.
Proof.
  simpl. split; [reflexivity|].
  intros tm H. injection H as <-. simpl. repeat split.
Qed.

End SelectorFacts.

(** ** The mock transaction hash *)

Module WalletFacts.

Open Scope string_scope.

Lemma toString16_digit (d : Z) :
  (0 <= d < 16)%Z -> Wallet.toString16 d = String (Wallet.hex_digit d) "".
Proof.
  intros H. unfold Wallet.toString16.
  destruct (d <? 0)%Z eqn:E; [apply Z.ltb_lt in E; lia|].
  simpl. destruct (d <? 16)%Z eqn:E'; [reflexivity|].
  apply Z.ltb_ge in E'. lia.
Qed.

Lemma hex_digit_is_hex (d : Z) :
  (0 <= d < 16)%Z -> Wallet.is_hex_char (Wallet.hex_digit d) = true.
Proof.
  intros H.
  assert (Hd : In d [0;1;2;3;4;5;6;7;8;9;10;11;12;13;14;15]%Z).
  { simpl. lia. }
  simpl in Hd.
  repeat (destruct Hd as [<-|Hd]; [reflexivity|]). contradiction.
Qed.

Definition hex1 (x : string) : Prop :=
  String.length x = 1%nat /\ Wallet.all_chars Wallet.is_hex_char x = true.

Lemma all_chars_app p a b :
  Wallet.all_chars p (a ++ b) = Wallet.all_chars p a && Wallet.all_chars p b.
Proof.
  induction a as [|c a IH]; simpl; [reflexivity|].
  rewrite IH, andb_assoc. reflexivity.
Qed.

Lemma length_app (a b : string) :
  String.length (a ++ b) = (String.length a + String.length b)%nat.
Proof. induction a as [|c a IH]; simpl; [reflexivity|]. rewrite IH. reflexivity. Qed.

Lemma concat_hex (l : list string) :
  Forall hex1 l ->
  String.length (String.concat "" l) = List.length l /\
  Wallet.all_chars Wallet.is_hex_char (String.concat "" l) = true.
Proof.
  induction 1 as [|x l [Hx1 Hx2] Hl [IH1 IH2]]; simpl; [split; reflexivity|].
  destruct l as [|y l].
  - split; assumption.
  - change (String.concat "" (y :: l)) with (String.concat "" (y :: l)) in *.
    rewrite length_app, all_chars_app. simpl (EmptyString ++ _).
    rewrite IH1, IH2, Hx1, Hx2. split; reflexivity.
Qed.

Lemma hash_digits_hex (rs : Rng.stream) (k : nat) :
  Forall hex1 (Wallet.hash_digits rs k) /\
  List.length (Wallet.hash_digits rs k) = 64%nat.
Proof.
  unfold Wallet.hash_digits. split.
  - apply Forall_forall. intros x Hx. apply in_map_iff in Hx as [i [<- _]].
    pose proof (Rng.floor_scaled_16 (rs (k + i)%nat)) as Hr.
    rewrite toString16_digit by exact Hr.
    split; [reflexivity|]. simpl. rewrite hex_digit_is_hex by exact Hr. reflexivity.
  - rewrite length_map, length_seq. reflexivity.
Qed.

(** The [i]-th character of the digits is the digit of the [i]-th draw. *)
Lemma concat_cons_digit (c : ascii) (l : list string) :
  String.concat "" (String c "" :: l) = String c (String.concat "" l).
Proof. destruct l; reflexivity. Qed.

Lemma get_concat_digits (f : nat -> ascii) (n start i : nat) :
  (i < n)%nat ->
  String.get i (String.concat "" (map (fun j => String (f j) "") (seq start n))) =
  Some (f (start + i)%nat).
Proof.
  revert start i. induction n as [|n IH]; intros start i Hi; [lia|].
  change (seq start (S n)) with (start :: seq (S start) n).
  cbn [map]. rewrite concat_cons_digit.
  destruct i as [|i]; cbn [String.get].
  - rewrite Nat.add_0_r. reflexivity.
  - rewrite IH by lia. do 2 f_equal. lia.
Qed.

Lemma hash_digits_spelled (rs : Rng.stream) (k : nat) :
  Wallet.hash_digits rs k =
  map (fun j => String (Wallet.hex_digit (Rng.floor_scaled (rs (k + j)%nat) 16)) "")
      (seq 0 64).
Proof.
  unfold Wallet.hash_digits. apply map_ext. intros j.
  apply toString16_digit, Rng.floor_scaled_16.
Qed.

Lemma hash_digit_at (rs : Rng.stream) (k i : nat) :
  (i < 64)%nat ->
  String.get i (String.concat "" (Wallet.hash_digits rs k)) =
  Some (Wallet.hex_digit (Rng.floor_scaled (rs (k + i)%nat) 16)).
Proof.
  intros Hi. rewrite hash_digits_spelled.
  apply (@get_concat_digits
           (fun j => Wallet.hex_digit (Rng.floor_scaled (rs (k + j)%nat) 16)) 64 0 i Hi).
Qed.

(** The draw [d / 16] gives the digit [d]. *)
Definition digit_draw (d : Z) : Rng.draw := Rng.draw_or_zero d 16.

Lemma digit_draw_digit (d : Z) :
  (0 <= d < 16)%Z -> Rng.floor_scaled (digit_draw d) 16 = d.
Proof.
  intros H.
  assert (Hd : In d [0;1;2;3;4;5;6;7;8;9;10;11;12;13;14;15]%Z) by (simpl; lia).
  simpl in Hd.
  repeat (destruct Hd as [<-|Hd]; [vm_compute; reflexivity|]). contradiction.
Qed.

(** Every string of 64 digits is the outcome for some draws. *)
Lemma every_hash_is_drawn (k : nat) (ds : list Z) :
  List.length ds = 64%nat -> Forall (fun d => (0 <= d < 16)%Z) ds ->
  exists rs : Rng.stream,
    String.concat "" (Wallet.hash_digits rs k) =
    String.concat "" (map (fun d => String (Wallet.hex_digit d) "") ds).
Proof.
  intros Hlen Hds.
  exists (fun n => digit_draw (nth (n - k) ds 0%Z)).
  f_equal. rewrite hash_digits_spelled.
  apply nth_ext with (d := "") (d' := "").
  - rewrite !length_map, length_seq. symmetry. exact Hlen.
  - intros n Hn. rewrite length_map, length_seq in Hn.
    rewrite (nth_indep _ "" (String (Wallet.hex_digit
               (Rng.floor_scaled (digit_draw (nth (k + 0 - k) ds 0%Z)) 16)) ""))
      by (rewrite length_map, length_seq; exact Hn).
    rewrite (map_nth (fun j => String (Wallet.hex_digit
               (Rng.floor_scaled (digit_draw (nth (k + j - k) ds 0%Z)) 16)) "")
               (seq 0 64) 0%nat n).
    rewrite seq_nth by exact Hn. cbn [Nat.add].
    replace (k + n - k)%nat with n by lia.
    rewrite (nth_indep _ "" (String (Wallet.hex_digit 0%Z) ""))
      by (rewrite length_map, Hlen; exact Hn).
    rewrite (map_nth (fun d => String (Wallet.hex_digit d) "") ds 0%Z n).
    rewrite digit_draw_digit; [reflexivity|].
    rewrite Forall_forall in Hds. apply Hds, nth_In. lia.
Qed.

End WalletFacts.

(** ** The page as a transition system: invariants *)

Module AppFacts.

Import Data App.
Local Open Scope nat_scope.

Lemma Q_same_eq (a b : Q) : Root.Q_same a b = true <-> a = b.
Proof.
  unfold Root.Q_same. rewrite andb_true_iff, Z.eqb_eq, Pos.eqb_eq.
  destruct a, b; simpl. split; [intros [-> ->]; reflexivity|].
  intros H; injection H as -> ->. split; reflexivity.
Qed.

Lemma option_eqb_eq {A} (eqb : A -> A -> bool) :
  (forall x y, eqb x y = true <-> x = y) ->
  forall a b, Root.option_eqb eqb a b = true <-> a = b.
Proof.
  intros H [x|] [y|]; simpl; try (split; congruence).
  rewrite H. split; congruence.
Qed.

Lemma state_eqb_eq (a b : Root.State) : Root.state_eqb a b = true <-> a = b.
Proof.
  unfold Root.state_eqb.
  rewrite !andb_true_iff, !Bool.eqb_true_iff.
  rewrite (@option_eqb_eq _ _ Q_same_eq), (@option_eqb_eq _ _ charity_eqb_eq),
    (@option_eqb_eq _ _ String.eqb_eq).
  destruct a, b; simpl. split.
  - intros [[[[-> ->] ->] ->] ->]. reflexivity.
  - intros H; injection H as -> -> -> -> ->. repeat split.
Qed.

(** Whether the last of the events [Started], [AmountReported], [Closed] in
    the history is an [AmountReported]. *)
Definition open_step (acc : bool) (e : event) : bool :=
  match e with
  | Started => false
  | AmountReported _ => true
  | Closed => false
  | _ => acc
  end.

Definition amount_pending (h : list event) : bool := fold_left open_step h false.

Lemma amount_pending_snoc h e :
  amount_pending (h ++ [e]) = open_step (amount_pending h) e.
Proof. unfold amount_pending. rewrite fold_left_app. reflexivity. Qed.

(** The charity slot as the history gives it: the last charity passed to
    [handleCharitySelected], [CHARITIES[0]] before any. *)
Definition slot_step (acc : Charity) (e : event) : Charity :=
  match e with
  | CharityReported c => c
  | _ => acc
  end.

Definition charity_slot (h : list event) : Charity :=
  fold_left slot_step h CHARITIES_0.

Lemma charity_slot_snoc h e :
  charity_slot (h ++ [e]) = slot_step (charity_slot h) e.
Proof. unfold charity_slot. rewrite fold_left_app. reflexivity. Qed.

Definition charity_from_table (e : event) : Prop :=
  match e with
  | CharityReported c => In c CHARITIES
  | _ => True
  end.

Definition no_selector_timers (s : State) : Prop :=
  Spinner.spinIntervalRef (spinner s) = None /\
  Spinner.spinTimeoutRef (spinner s) = None /\
  Picker.spinInterval (picker s) = None /\
  Picker.revealTimeout (picker s) = None.

Definition no_timers (s : State) : Prop :=
  rootTimers s = [] /\ no_selector_timers s.

(** What holds of the slots of [Home] and of the history. *)
Record RootInv (r : Root.State) (h : list event) : Prop := mkRootInv {
  inv_amount : Root.showModal r = true -> Root.selectedAmount r <> None;
  inv_charity : exists c, Root.selectedCharity r = Some c /\ In c CHARITIES;
  inv_pending : amount_pending h = Root.showModal r;
  inv_slot : Root.selectedCharity r = Some (charity_slot h);
  inv_reports : Forall charity_from_table h
}.

(** What holds of the timers: the spinning flag is set exactly while the one
    timeout of [handleStartSpin] is pending; a selector has timers only if
    the last render of [Home] passed it [isSpinning = true]; the charity the
    picker's timeout will report is an entry of the table. *)
Record TimerInv (s : State) : Prop := mkTimerInv {
  ti_idle : Root.isSpinning (root s) = false -> rootTimers s = [];
  ti_spin : Root.isSpinning (root s) = true ->
            exists D, rootTimers s = [Timer.mk D (session s) tt] /\
                      D <= now s + 4000;
  ti_shown : Root.isSpinning (shown s) = false -> no_selector_timers s;
  ti_payload : forall tm,
    Picker.revealTimeout (picker s) = Some tm -> In (Timer.payload tm) CHARITIES
}.

Definition Inv (s : State) : Prop :=
  RootInv (root s) (history s) /\ TimerInv s.

Lemma Inv_initial : Inv initial.
Proof.
  split; constructor; simpl; try discriminate; try reflexivity.
  - exists CHARITIES_0. split; [reflexivity|]. simpl. auto.
  - constructor.
  - intros _. repeat split.
Qed.

Section Preservation.

Variable rs : Rng.stream.

Lemma flush_cases (s : State) :
  (shown s = root s /\ flush rs s = s) \/
  (shown s <> root s /\ flush rs s = runEffects rs s).
Proof.
  unfold flush. destruct (Root.state_eqb (shown s) (root s)) eqn:E.
  - left. apply state_eqb_eq in E. auto.
  - right. split; [|reflexivity]. intros H. apply state_eqb_eq in H. congruence.
Qed.

Lemma flush_changed s : shown s <> root s -> flush rs s = runEffects rs s.
Proof.
  intros H. destruct (flush_cases s) as [[E _]|[_ E]]; [contradiction|exact E].
Qed.

Lemma flush_root s : root (flush rs s) = root s.
Proof. destruct (flush_cases s) as [[_ ->]|[_ ->]]; reflexivity. Qed.

Lemma flush_history s : history (flush rs s) = history s.
Proof. destruct (flush_cases s) as [[_ ->]|[_ ->]]; reflexivity. Qed.

Lemma flush_now s : now (flush rs s) = now s.
Proof. destruct (flush_cases s) as [[_ ->]|[_ ->]]; reflexivity. Qed.

Lemma flush_session s : session (flush rs s) = session s.
Proof. destruct (flush_cases s) as [[_ ->]|[_ ->]]; reflexivity. Qed.

Lemma flush_rootTimers s : rootTimers (flush rs s) = rootTimers s.
Proof. destruct (flush_cases s) as [[_ ->]|[_ ->]]; reflexivity. Qed.

Lemma flush_shown s : shown (flush rs s) = root s.
Proof. destruct (flush_cases s) as [[E ->]|[_ ->]]; [exact E|reflexivity]. Qed.

Lemma TimerInv_runEffects s : TimerInv s -> TimerInv (runEffects rs s).
Proof.
  intros [H1 H2 H3 H4].
  constructor; unfold runEffects;
    cbn [root shown rootTimers now session spinner picker].
  - exact H1.
  - exact H2.
  - intros Hs. rewrite Hs. repeat split.
  - destruct (Root.isSpinning (root s)); simpl; intros tm E.
    + injection E as <-. apply SelectionFacts.drawCharity_in.
    + discriminate E.
Qed.

Lemma Inv_flush s : Inv s -> Inv (flush rs s).
Proof.
  intros [HR HT]. destruct (flush_cases s) as [[_ ->]|[_ ->]].
  - split; assumption.
  - split; [exact HR|apply TimerInv_runEffects, HT].
Qed.

(** A handler that leaves the spinning flag alone leaves [TimerInv] alone. *)
Lemma TimerInv_with_root s r ev :
  TimerInv s -> Root.isSpinning r = Root.isSpinning (root s) ->
  TimerInv (with_root r ev s).
Proof.
  intros [H1 H2 H3 H4] E. constructor; simpl; try assumption.
  - rewrite E. exact H1.
  - rewrite E. exact H2.
Qed.

End Preservation.


Section Steps.

Variable rs : Rng.stream.

Lemma guard_some b s s' : guard b s = Some s' -> b = true /\ s' = s.
Proof. destruct b; simpl; intros H; [injection H as <-; auto|discriminate]. Qed.

Lemma earliest_le d s x : earliest d s = true -> In x (dues s) -> d <= x.
Proof.
  unfold earliest. rewrite forallb_forall. intros H Hx.
  apply Nat.leb_le. apply H. exact Hx.
Qed.

Lemma earliest_intro d s :
  (forall x, In x (dues s) -> d <= x) -> earliest d s = true.
Proof.
  intros H. unfold earliest. apply forallb_forall. intros x Hx.
  apply Nat.leb_le. apply H, Hx.
Qed.

Lemma dues_root s tm : In tm (rootTimers s) -> In (Timer.due tm) (dues s).
Proof. intros H. unfold dues. apply in_or_app. left. apply in_map. exact H. Qed.

(** [RootInv] under the handlers. *)
Lemma RootInv_start r h :
  RootInv r h -> Root.isSpinning r = false ->
  RootInv (fst (Root.handleStartSpin r)) (h ++ [Started]).
Proof.
  intros [H1 H2 H3 H4 H5] Hs. unfold Root.handleStartSpin. rewrite Hs. simpl.
  constructor; simpl; try discriminate.
  - exact H2.
  - rewrite amount_pending_snoc. reflexivity.
  - rewrite charity_slot_snoc. exact H4.
  - apply Forall_app. split; [exact H5|]. repeat constructor.
Qed.

Lemma RootInv_close r h :
  RootInv r h -> RootInv (Root.handleCloseModal r) (h ++ [Closed]).
Proof.
  intros [H1 H2 H3 H4 H5]. constructor; simpl; try discriminate.
  - exact H2.
  - rewrite amount_pending_snoc. reflexivity.
  - rewrite charity_slot_snoc. exact H4.
  - apply Forall_app. split; [exact H5|]. repeat constructor.
Qed.

Lemma RootInv_receipt r h x :
  RootInv r h -> RootInv (Root.handleDonationComplete x r) (h ++ [ReceiptReported x]).
Proof.
  intros [H1 H2 H3 H4 H5]. constructor; simpl.
  - exact H1.
  - exact H2.
  - rewrite amount_pending_snoc. exact H3.
  - rewrite charity_slot_snoc. exact H4.
  - apply Forall_app. split; [exact H5|]. repeat constructor.
Qed.

Lemma RootInv_stop r h :
  RootInv r h -> RootInv (Root.spinTimeout r) (h ++ [Stopped]).
Proof.
  intros [H1 H2 H3 H4 H5]. constructor; simpl.
  - exact H1.
  - exact H2.
  - rewrite amount_pending_snoc. exact H3.
  - rewrite charity_slot_snoc. exact H4.
  - apply Forall_app. split; [exact H5|]. repeat constructor.
Qed.

Lemma RootInv_amount r h a :
  RootInv r h -> RootInv (Root.handleSpinComplete a r) (h ++ [AmountReported a]).
Proof.
  intros [H1 H2 H3 H4 H5]. constructor; simpl; try discriminate.
  - exact H2.
  - rewrite amount_pending_snoc. reflexivity.
  - rewrite charity_slot_snoc. exact H4.
  - apply Forall_app. split; [exact H5|]. repeat constructor.
Qed.

(** The one handler that writes the charity slot: what it stores is what it
    is passed. *)
Lemma RootInv_charity r h c :
  RootInv r h -> In c CHARITIES ->
  RootInv (Root.handleCharitySelected c r) (h ++ [CharityReported c]).
Proof.
  intros [H1 H2 H3 H4 H5] Hc. constructor; simpl.
  - exact H1.
  - exists c. split; [reflexivity|exact Hc].
  - rewrite amount_pending_snoc. exact H3.
  - rewrite charity_slot_snoc. reflexivity.
  - apply Forall_app. split; [exact H5|]. constructor; [exact Hc|constructor].
Qed.

Lemma Inv_clickSpin s : Inv s -> Inv (clickSpin rs s).
Proof.
  intros HI. unfold clickSpin, Root.clickSpin.
  destruct (Root.spin_button_disabled (root s)); [exact HI|].
  destruct (Root.handleStartSpin (root s)) as [r b] eqn:E.
  destruct b; [|exact HI].
  unfold Root.handleStartSpin in E.
  destruct (Root.isSpinning (root s)) eqn:Hs; [discriminate|].
  injection E as <-.
  destruct (Inv_flush rs HI) as [HR HT].
  set (s0 := flush rs s) in *.
  assert (Hs0 : Root.isSpinning (root s0) = false).
  { unfold s0. rewrite flush_root. exact Hs. }
  apply Inv_flush. split.
  - cbn [root history].
    pose proof (RootInv_start HR Hs0) as H. unfold Root.handleStartSpin in H.
    rewrite Hs0 in H. simpl in H.
    replace (Root.selectedCharity (root s)) with (Root.selectedCharity (root s0))
      by (unfold s0; rewrite flush_root; reflexivity).
    exact H.
  - destruct HT as [H1 H2 H3 H4]. constructor; simpl; try assumption.
    + discriminate.
    + intros _. rewrite (H1 Hs0). eexists. split; [reflexivity|].
      unfold Root.SPIN_DURATION. lia.
Qed.

Lemma Inv_closeModal s : Inv s -> Inv (closeModal rs s).
Proof.
  intros HI. unfold closeModal.
  destruct (Inv_flush rs HI) as [HR HT].
  apply Inv_flush. split.
  - apply RootInv_close, HR.
  - apply TimerInv_with_root; [exact HT|reflexivity].
Qed.

Lemma Inv_receipt s h : Inv s -> Inv (receipt h s).
Proof.
  intros [HR HT]. unfold receipt. split.
  - apply RootInv_receipt, HR.
  - apply TimerInv_with_root; [exact HT|reflexivity].
Qed.

Lemma Inv_wait s d : Inv s -> Inv (at_time (now s + d) s).
Proof.
  intros [HR [H1 H2 H3 H4]]. split; [exact HR|].
  constructor; simpl; try assumption.
  intros Hs. destruct (H2 Hs) as (D & E & HD). exists D. split; [exact E|lia].
Qed.

Lemma Inv_fireRoot s tm rest :
  Inv s -> rootTimers s = tm :: rest -> Inv (fireRoot tm rest s).
Proof.
  intros [HR [H1 H2 H3 H4]] Ht. split.
  - apply RootInv_stop, HR.
  - constructor; simpl; try assumption; try discriminate.
    intros _. destruct (Root.isSpinning (root s)) eqn:Hs.
    + destruct (H2 eq_refl) as (D & E & _). rewrite Ht in E.
      injection E as _ ->. reflexivity.
    + rewrite (H1 eq_refl) in Ht. discriminate.
Qed.

Lemma Inv_fireSpinnerInterval s tm :
  Inv s -> Spinner.spinIntervalRef (spinner s) = Some tm ->
  Inv (fireSpinnerInterval tm s).
Proof.
  intros [HR [H1 H2 H3 H4]] Ht. split; [exact HR|].
  constructor; simpl; try assumption.
  - intros Hs. destruct (H2 Hs) as (D & E & HD). exists D. split; [exact E|lia].
  - intros Hs. destruct (H3 Hs) as (T1 & _). congruence.
Qed.

Lemma Inv_firePickerInterval s tm :
  Inv s -> Picker.spinInterval (picker s) = Some tm ->
  Inv (firePickerInterval tm s).
Proof.
  intros [HR [H1 H2 H3 H4]] Ht. split; [exact HR|].
  constructor; simpl; try assumption.
  - intros Hs. destruct (H2 Hs) as (D & E & HD). exists D. split; [exact E|lia].
  - intros Hs. destruct (H3 Hs) as (_ & _ & T3 & _). congruence.
Qed.

Lemma Inv_fireSpinnerTimeout s tm :
  Inv s -> Spinner.spinTimeoutRef (spinner s) = Some tm ->
  Inv (fireSpinnerTimeout tm s).
Proof.
  intros [HR [H1 H2 H3 H4]] Ht. unfold fireSpinnerTimeout.
  cbn [Spinner.revealTimeout]. split.
  - apply RootInv_amount, HR.
  - constructor; simpl; try assumption.
    + intros Hs. destruct (H2 Hs) as (D & E & HD). exists D. split; [exact E|lia].
    + intros Hs. destruct (H3 Hs) as (_ & T2 & _). congruence.
Qed.

Lemma Inv_firePickerTimeout s tm :
  Inv s -> Picker.revealTimeout (picker s) = Some tm ->
  Inv (firePickerTimeout tm s).
Proof.
  intros [HR [H1 H2 H3 H4]] Ht. unfold firePickerTimeout.
  cbn [Picker.revealFire]. split.
  - apply RootInv_charity; [exact HR|]. apply H4, Ht.
  - constructor; simpl; try assumption; try discriminate.
    + intros Hs. destruct (H2 Hs) as (D & E & HD). exists D. split; [exact E|lia].
    + intros Hs. destruct (H3 Hs) as (_ & _ & _ & T4). congruence.
Qed.

Theorem Inv_step s l s' : Inv s -> step rs l s = Some s' -> Inv s'.
Proof.
  intros HI H. destruct l as [| |h|t| |d]; cbv beta iota delta [step] in H.
  - injection H as <-. apply Inv_clickSpin, HI.
  - apply guard_some in H as [_ ->]. apply Inv_closeModal, HI.
  - injection H as <-. apply Inv_receipt, HI.
  - destruct t.
    + destruct (rootTimers s) as [|tm rest] eqn:Et; [discriminate|].
      apply guard_some in H as [_ ->]. apply Inv_fireRoot; assumption.
    + destruct (Spinner.spinIntervalRef (spinner s)) as [tm|] eqn:Et; [|discriminate].
      apply guard_some in H as [_ ->]. apply Inv_fireSpinnerInterval; assumption.
    + destruct (Spinner.spinTimeoutRef (spinner s)) as [tm|] eqn:Et; [|discriminate].
      apply guard_some in H as [_ ->]. apply Inv_fireSpinnerTimeout; assumption.
    + destruct (Picker.spinInterval (picker s)) as [tm|] eqn:Et; [|discriminate].
      apply guard_some in H as [_ ->]. apply Inv_firePickerInterval; assumption.
    + destruct (Picker.revealTimeout (picker s)) as [tm|] eqn:Et; [|discriminate].
      apply guard_some in H as [_ ->]. apply Inv_firePickerTimeout; assumption.
  - injection H as <-. apply Inv_flush, HI.
  - injection H as <-. apply Inv_wait, HI.
Qed.

Theorem Inv_steps tr : forall s s', Inv s -> steps rs tr s = Some s' -> Inv s'.
Proof.
  induction tr as [|l tr IH]; simpl; intros s s' HI H.
  - injection H as <-. exact HI.
  - destruct (step rs l s) as [s1|] eqn:E; [|discriminate].
    apply (IH s1); [eapply Inv_step; eassumption|exact H].
Qed.

Theorem Inv_reachable s : reachable rs s -> Inv s.
Proof. intros [tr H]. exact (Inv_steps tr Inv_initial H). Qed.

Lemma steps_app tr1 tr2 s :
  steps rs (tr1 ++ tr2) s =
  match steps rs tr1 s with Some s1 => steps rs tr2 s1 | None => None end.
Proof.
  revert s. induction tr1 as [|l tr1 IH]; simpl; intros s; [reflexivity|].
  destruct (step rs l s); [apply IH|reflexivity].
Qed.

End Steps.

(** *** A spin, step by step *)

Section Cycle.

Variable rs : Rng.stream.

(** The state between the click and the reveal, after [j] ticks of both
    intervals; the spin started at [t0]. *)
Record PhaseA (t0 ses : nat) (r : Root.State) (a : Q) (c : Charity)
    (cs : nat) (h : list event) (j : nat) (s : State) : Prop := mkPhaseA {
  pa_root : root s = r;
  pa_shown : shown s = r;
  pa_timers : rootTimers s = [Timer.mk (t0 + 4000) ses tt];
  pa_si : Spinner.spinIntervalRef (spinner s) = Some (Timer.mk (t0 + 100 * S j) ses tt);
  pa_st : Spinner.spinTimeoutRef (spinner s) = Some (Timer.mk (t0 + 3900) ses a);
  pa_pi : Picker.spinInterval (picker s) = Some (Timer.mk (t0 + 100 * S j) ses tt);
  pa_pt : Picker.revealTimeout (picker s) = Some (Timer.mk (t0 + 4000) ses c);
  pa_fc : Picker.finalCharity (picker s) = Some c;
  pa_now : now s = t0 + 100 * j;
  pa_calls : calls s = cs;
  pa_ses : session s = ses;
  pa_hist : history s = h
}.

Lemma PhaseA_dues t0 ses r a c cs h j s :
  PhaseA t0 ses r a c cs h j s ->
  dues s = [t0 + 4000; t0 + 100 * S j; t0 + 3900; t0 + 100 * S j; t0 + 4000].
Proof.
  intros H. unfold dues.
  rewrite (pa_timers H), (pa_si H), (pa_st H), (pa_pi H), (pa_pt H). reflexivity.
Qed.

Lemma PhaseA_tick t0 ses r a c cs h j s :
  PhaseA t0 ses r a c cs h j s -> j < 38 ->
  exists s', steps rs [Fire SpinnerInterval; Fire PickerInterval] s = Some s' /\
             PhaseA t0 ses r a c cs h (S j) s'.
Proof.
  intros H Hj.
  assert (He : earliest (t0 + 100 * S j) s = true).
  { apply earliest_intro. intros x Hx. rewrite (PhaseA_dues H) in Hx.
    simpl in Hx. lia. }
  set (s1 := fireSpinnerInterval (Timer.mk (t0 + 100 * S j) ses tt) s).
  assert (H1 : step rs (Fire SpinnerInterval) s = Some s1).
  { cbv beta iota delta [step]. rewrite (pa_si H). cbn [Timer.due].
    rewrite He. reflexivity. }
  assert (Hd1 : dues s1 =
    [t0 + 4000; t0 + 100 * S j + 100; t0 + 3900; t0 + 100 * S j; t0 + 4000]).
  { unfold dues, s1. simpl.
    rewrite (pa_timers H), (pa_st H), (pa_pi H), (pa_pt H). reflexivity. }
  assert (He1 : earliest (t0 + 100 * S j) s1 = true).
  { apply earliest_intro. intros x Hx. rewrite Hd1 in Hx. simpl in Hx. lia. }
  set (s2 := firePickerInterval (Timer.mk (t0 + 100 * S j) ses tt) s1).
  assert (H2 : step rs (Fire PickerInterval) s1 = Some s2).
  { cbv beta iota delta [step].
    change (Picker.spinInterval (picker s1)) with (Picker.spinInterval (picker s)).
    rewrite (pa_pi H). cbn [Timer.due]. rewrite He1. reflexivity. }
  exists s2. split.
  - unfold steps. rewrite H1, H2. reflexivity.
  - constructor; unfold s2, s1; simpl.
    + apply (pa_root H).
    + apply (pa_shown H).
    + apply (pa_timers H).
    + unfold Spinner.TICK. do 2 f_equal. lia.
    + apply (pa_st H).
    + unfold Picker.TICK. do 2 f_equal. lia.
    + apply (pa_pt H).
    + apply (pa_fc H).
    + rewrite (pa_now H). lia.
    + apply (pa_calls H).
    + apply (pa_ses H).
    + apply (pa_hist H).
Qed.

Lemma PhaseA_ticks t0 ses r a c cs h n :
  forall j s, PhaseA t0 ses r a c cs h j s -> j + n <= 38 ->
  exists s', steps rs (ticks n) s = Some s' /\
             PhaseA t0 ses r a c cs h (j + n) s'.
Proof.
  induction n as [|n IH]; intros j s H Hj.
  - exists s. split; [reflexivity|]. rewrite Nat.add_0_r. exact H.
  - destruct (PhaseA_tick H) as (s1 & Hs1 & H1); [lia|].
    destruct (IH (S j) s1 H1) as (s2 & Hs2 & H2); [lia|].
    exists s2. split.
    + change (ticks (S n)) with ([Fire SpinnerInterval; Fire PickerInterval] ++ ticks n)%list.
      rewrite steps_app, Hs1. exact Hs2.
    + replace (j + S n) with (S j + n) by lia. exact H2.
Qed.

(** The slots of [Home] right after an accepted click. *)
Definition started (r : Root.State) : Root.State :=
  {| Root.isSpinning := true; Root.selectedAmount := None;
     Root.selectedCharity := Root.selectedCharity r;
     Root.showModal := false; Root.txHash := None |}.


Lemma flush_calls_idle s :
  Root.isSpinning (root s) = false -> calls (flush rs s) = calls s.
Proof.
  intros Hs. destruct (flush_cases rs s) as [[_ ->]|[_ ->]]; [reflexivity|].
  unfold runEffects. cbn [calls]. rewrite Hs. simpl. lia.
Qed.

Lemma click_enters_PhaseA s :
  Inv s -> Root.spin_button_disabled (root s) = false ->
  PhaseA (now s) (S (session s)) (started (root s))
    (Spinner.selectedSegment (rs (calls s + 1)) (rs (calls s + 2)))
    (Picker.drawCharity (rs (calls s)))
    (calls s + 3) (history s ++ [Started])%list 0 (clickSpin rs s).
Proof.
  intros HI Hd.
  unfold Root.spin_button_disabled in Hd. apply orb_false_iff in Hd as [Hs Hm].
  unfold clickSpin, Root.clickSpin, Root.spin_button_disabled.
  rewrite Hs, Hm. cbn [orb]. unfold Root.handleStartSpin. rewrite Hs.
  destruct (Inv_flush rs HI) as [_ [HT _ _ _]].
  rewrite flush_root in HT. specialize (HT Hs).
  rewrite flush_changed.
  2:{ cbn [shown root]. rewrite flush_shown. intros E. rewrite E in Hs. discriminate. }
  unfold runEffects. cbn [root shown now rootTimers spinner picker calls session history].
  rewrite HT, flush_now, flush_session, flush_history, (flush_calls_idle _ Hs).
  cbn [Root.isSpinning Picker.draws Spinner.draws].
  replace (S (calls s + 1)) with (calls s + 2) by lia.
  replace (calls s + 1 + 2) with (calls s + 3) by lia.
  constructor;
    cbn [root shown now rootTimers spinner picker calls session history
         Spinner.effect Picker.effect Spinner.cleanup Picker.cleanup
         Spinner.spinIntervalRef Spinner.spinTimeoutRef
         Picker.spinInterval Picker.revealTimeout Picker.finalCharity app];
    unfold Spinner.TICK, Spinner.REVEAL_DELAY, Picker.TICK, Picker.REVEAL_DELAY,
      Root.SPIN_DURATION, started;
    rewrite ?Nat.mul_1_r, ?Nat.mul_0_r, ?Nat.add_0_r; reflexivity.
Qed.

(** The state once the spinner's timeout has run and before [Home] has
    rendered again: the amount is in its slot, the picker's timers are still
    pending, its interval next due [iv] ms after the start. *)
Record PhaseB (t0 ses : nat) (r : Root.State) (a : Q) (c : Charity)
    (cs : nat) (h : list event) (iv : nat) (s : State) : Prop := mkPhaseB {
  pb_root : root s = Root.handleSpinComplete a r;
  pb_shown : shown s = r;
  pb_timers : rootTimers s = [Timer.mk (t0 + 4000) ses tt];
  pb_si : Spinner.spinIntervalRef (spinner s) = None;
  pb_st : Spinner.spinTimeoutRef (spinner s) = None;
  pb_pi : Picker.spinInterval (picker s) = Some (Timer.mk (t0 + iv) ses tt);
  pb_pt : Picker.revealTimeout (picker s) = Some (Timer.mk (t0 + 4000) ses c);
  pb_now : now s = t0 + 3900;
  pb_calls : calls s = cs;
  pb_ses : session s = ses;
  pb_hist : history s = (h ++ [AmountReported a])%list
}.

Lemma PhaseA_reveal t0 ses r a c cs h s :
  PhaseA t0 ses r a c cs h 38 s ->
  exists s', step rs (Fire SpinnerTimeout) s = Some s' /\
             PhaseB t0 ses r a c cs h 3900 s'.
Proof.
  intros H.
  assert (He : earliest (t0 + 3900) s = true).
  { apply earliest_intro. intros x Hx. rewrite (PhaseA_dues H) in Hx.
    simpl in Hx. lia. }
  eexists. split.
  { cbv beta iota delta [step]. rewrite (pa_st H). cbn [Timer.due].
    rewrite He. reflexivity. }
  unfold fireSpinnerTimeout. cbn [Spinner.revealTimeout Timer.payload Timer.due].
  constructor; cbn [root shown now rootTimers spinner picker calls session history
                    Spinner.spinIntervalRef Spinner.spinTimeoutRef].
  - rewrite (pa_root H). reflexivity.
  - apply (pa_shown H).
  - apply (pa_timers H).
  - reflexivity.
  - reflexivity.
  - rewrite (pa_pi H). do 2 f_equal.
  - apply (pa_pt H).
  - rewrite (pa_now H). lia.
  - apply (pa_calls H).
  - apply (pa_ses H).
  - rewrite (pa_hist H). reflexivity.
Qed.


(** The page renders late: the picker's interval and the two timeouts due at
    4000 ms run before any render.  The root's timeout ends the spin, then
    the picker's timeout passes the charity it drew at the click to
    [handleCharitySelected]; the render that follows tears the selectors
    down. *)
Lemma PhaseB_late t0 ses r a c cs h s :
  PhaseB t0 ses r a c cs h 3900 s ->
  Root.isSpinning r = true ->
  exists s1 s2,
    steps rs [Fire PickerInterval; Fire RootTimeout] s = Some s1 /\
    root s1 = Root.spinTimeout (Root.handleSpinComplete a r) /\
    now s1 = t0 + 4000 /\
    history s1 = (h ++ [AmountReported a; Stopped])%list /\
    steps rs [Fire PickerTimeout; Render] s1 = Some s2 /\
    root s2 = Root.handleCharitySelected c (root s1) /\
    shown s2 = root s2 /\
    now s2 = t0 + 4000 /\
    history s2 = (h ++ [AmountReported a; Stopped; CharityReported c])%list /\
    no_timers s2.
Proof.
  intros H Hs.
  set (s0 := firePickerInterval (Timer.mk (t0 + 3900) ses tt) s).
  assert (H0 : step rs (Fire PickerInterval) s = Some s0).
  { cbv beta iota delta [step]. rewrite (pb_pi H). cbn [Timer.due].
    rewrite earliest_intro; [reflexivity|].
    intros x Hx. unfold dues in Hx.
    rewrite (pb_timers H), (pb_si H), (pb_st H), (pb_pi H), (pb_pt H) in Hx.
    simpl in Hx. lia. }
  set (s1 := fireRoot (Timer.mk (t0 + 4000) ses tt) [] s0).
  assert (H1 : step rs (Fire RootTimeout) s0 = Some s1).
  { cbv beta iota delta [step].
    change (rootTimers s0) with (rootTimers s). rewrite (pb_timers H).
    cbn [Timer.due]. rewrite earliest_intro; [reflexivity|].
    intros x Hx. unfold dues, s0 in Hx. simpl in Hx.
    rewrite (pb_timers H), (pb_si H), (pb_st H), (pb_pt H) in Hx.
    simpl in Hx. unfold Picker.TICK in Hx. lia. }
  set (s2 := firePickerTimeout (Timer.mk (t0 + 4000) ses c) s1).
  assert (H2 : step rs (Fire PickerTimeout) s1 = Some s2).
  { cbv beta iota delta [step].
    change (Picker.revealTimeout (picker s1)) with (Picker.revealTimeout (picker s)).
    rewrite (pb_pt H). cbn [Timer.due]. rewrite earliest_intro; [reflexivity|].
    intros x Hx. unfold dues, s1, s0 in Hx. simpl in Hx.
    rewrite (pb_si H), (pb_st H), (pb_pt H) in Hx.
    simpl in Hx. unfold Picker.TICK in Hx. lia. }
  assert (Hr1 : root s1 = Root.spinTimeout (Root.handleSpinComplete a r)).
  { unfold s1, s0. simpl. rewrite (pb_root H). reflexivity. }
  assert (Hn1 : now s1 = t0 + 4000).
  { unfold s1, s0. simpl. rewrite (pb_now H). lia. }
  exists s1, (flush rs s2). split.
  { cbn [steps]. rewrite H0, H1. reflexivity. }
  split; [exact Hr1|]. split; [exact Hn1|]. split.
  { unfold s1, s0. simpl. rewrite (pb_hist H), <- app_assoc. reflexivity. }
  split.
  { cbn [steps]. rewrite H2. reflexivity. }
  assert (Hr2 : root s2 = Root.handleCharitySelected c (root s1)).
  { unfold s2, firePickerTimeout. cbn [Picker.revealFire Timer.payload root].
    reflexivity. }
  assert (Hsh : shown s2 <> root s2).
  { rewrite Hr2, Hr1. unfold s2, s1, s0. simpl. rewrite (pb_shown H).
    intros E. rewrite E in Hs. discriminate. }
  rewrite (@flush_changed rs s2 Hsh).
  unfold runEffects. cbn [root shown now history].
  split; [exact Hr2|]. split; [reflexivity|]. split.
  { unfold s2, firePickerTimeout. cbn [Picker.revealFire Timer.due now].
    rewrite Hn1. lia. }
  split.
  { unfold s2, s1, s0. simpl. rewrite (pb_hist H), <- !app_assoc. reflexivity. }
  unfold no_timers, no_selector_timers.
  cbn [rootTimers spinner picker]. rewrite Hr2, Hr1. simpl.
  repeat split.
Qed.


(** From the click to the end of the spin when the last timers run as one
    late batch. *)
Lemma late_batch_runs s :
  Inv s -> Root.spin_button_disabled (root s) = false ->
  let a := Spinner.selectedSegment (rs (calls s + 1)) (rs (calls s + 2)) in
  let c := Picker.drawCharity (rs (calls s)) in
  exists s1 s2,
    steps rs (ClickSpin :: ticks 38 ++
              [Fire SpinnerTimeout; Fire PickerInterval; Fire RootTimeout]) s = Some s1 /\
    root s1 = Root.spinTimeout (Root.handleSpinComplete a (started (root s))) /\
    now s1 = now s + 4000 /\
    history s1 = (history s ++ [Started; AmountReported a; Stopped])%list /\
    steps rs [Fire PickerTimeout; Render] s1 = Some s2 /\
    root s2 = Root.handleCharitySelected c (root s1) /\
    shown s2 = root s2 /\
    now s2 = now s + 4000 /\
    history s2 =
      (history s ++ [Started; AmountReported a; Stopped; CharityReported c])%list /\
    no_timers s2.
Proof.
  intros HI Hd a c.
  pose proof (click_enters_PhaseA HI Hd) as H0.
  destruct (@PhaseA_ticks _ _ _ _ _ _ _ 38 0 _ H0) as (s1 & Hs1 & H1); [lia|].
  destruct (PhaseA_reveal H1) as (s2 & Hs2 & H2).
  destruct (PhaseB_late H2 eq_refl)
    as (s3 & s4 & Hs3 & R3 & N3 & Hi3 & Hs4 & R4 & Sh4 & N4 & Hi4 & T4).
  exists s3, s4. split.
  { cbn [steps step]. rewrite steps_app, Hs1.
    change [Fire SpinnerTimeout; Fire PickerInterval; Fire RootTimeout]
      with ([Fire SpinnerTimeout] ++ [Fire PickerInterval; Fire RootTimeout])%list.
    rewrite steps_app. cbn [steps]. rewrite Hs2. exact Hs3. }
  split; [exact R3|]. split; [exact N3|].
  split; [rewrite Hi3, <- app_assoc; reflexivity|]. split; [exact Hs4|].
  split; [exact R4|]. split; [exact Sh4|]. split; [exact N4|].
  split; [rewrite Hi4, <- app_assoc; reflexivity|exact T4].
Qed.

End Cycle.


(** *** History and the dialog *)

(** [amount_pending] spelled out: some [AmountReported] is followed by
    neither [Started] nor [Closed]. *)
Lemma amount_pending_spec (h : list event) :
  amount_pending h = true <->
  exists pre a post,
    h = (pre ++ AmountReported a :: post)%list /\
    Forall (fun e => e <> Started /\ e <> Closed) post.
Proof.
  induction h as [|e h IH] using rev_ind.
  - split; [discriminate|]. intros (pre & a & post & H & _).
    destruct pre; discriminate.
  - rewrite amount_pending_snoc. split.
    + intros H. destruct e; simpl in H; try discriminate.
      * exists h, a, []. split; [reflexivity|constructor].
      * apply IH in H as (pre & a & post & -> & Hp).
        exists pre, a, (post ++ [CharityReported c])%list. split.
        -- rewrite <- app_assoc. reflexivity.
        -- apply Forall_app. split; [exact Hp|]. constructor; [|constructor].
           split; discriminate.
      * apply IH in H as (pre & a & post & -> & Hp).
        exists pre, a, (post ++ [ReceiptReported h0])%list. split.
        -- rewrite <- app_assoc. reflexivity.
        -- apply Forall_app. split; [exact Hp|]. constructor; [|constructor].
           split; discriminate.
      * apply IH in H as (pre & a & post & -> & Hp).
        exists pre, a, (post ++ [Stopped])%list. split.
        -- rewrite <- app_assoc. reflexivity.
        -- apply Forall_app. split; [exact Hp|]. constructor; [|constructor].
           split; discriminate.
    + intros (pre & a & post & H & Hp).
      destruct post as [|p post] using rev_ind.
      * change (pre ++ [AmountReported a])%list with (pre ++ [AmountReported a])%list in H.
        apply app_inj_tail in H as [_ ->]. reflexivity.
      * clear IHpost.
        rewrite app_comm_cons, app_assoc in H. apply app_inj_tail in H as [-> ->].
        apply Forall_app in Hp as [Hp Hq]. inversion Hq as [|? ? [Hq1 Hq2] _]; subst.
        assert (Hprev : amount_pending (pre ++ AmountReported a :: post) = true).
        { apply IH. exists pre, a, post. split; [reflexivity|exact Hp]. }
        destruct p; simpl; try congruence; reflexivity.
Qed.

Lemma rendered_is_showModal r h :
  RootInv r h -> Root.dialog_rendered r = Root.showModal r.
Proof.
  intros [H1 [c [H2 _]] _ _ _]. unfold Root.dialog_rendered.
  destruct (Root.showModal r) eqn:E; [|reflexivity].
  rewrite H2. simpl. destruct (Root.selectedAmount r); [reflexivity|].
  exfalso. apply H1; reflexivity.
Qed.

End AppFacts.

Module Scenario.

Import Data App.

Definition draws (n : nat) : Rng.draw :=
  match n with
  | 0%nat => Rng.draw_or_zero 70 100
  | 1%nat => Rng.draw_or_zero 31 100
  | 2%nat => Rng.draw_or_zero 10 100
  | 3%nat => Rng.draw_or_zero 55 100
  | _ => Rng.zero
  end.

Definition state_after (tr : list label) : State :=
  match steps draws tr initial with
  | Some s => s
  | None => initial
  end.

(** 3900 ms after the click, and 4000 ms after it. *)
Definition at_reveal : State := state_after (ClickSpin :: until_reveal).
Definition at_stop : State := state_after (spin_cycle).

Lemma at_reveal_reachable : reachable draws at_reveal.
Proof. exists (ClickSpin :: until_reveal). vm_compute. reflexivity. Qed.

Lemma at_stop_reachable : reachable draws at_stop.
Proof. exists spin_cycle. vm_compute. reflexivity. Qed.

Lemma initial_reachable rs : reachable rs initial.
Proof. exists []. reflexivity. Qed.

Example at_reveal_root :
  root at_reveal =
  {| Root.isSpinning := true; Root.selectedAmount := Some 1.00%Q;
     Root.selectedCharity := Some water_org; Root.showModal := true;
     Root.txHash := None |}.
Proof. vm_compute. reflexivity. Qed.

(** A spin that is disturbed.  After the first spin a donation attempt is
    under way when the dialog is closed (a click on the overlay) and a second
    spin is started; 1500 ms into that spin the timer of [sendDonation] ends,
    the attempt resolves and the dialog's continuation calls
    [onDonationComplete].  [Home] renders again, the selectors start over,
    and the spin stops 4000 ms after its click, before the spinner's new
    timeout (due 5400 ms after the click) has run: the second spin reports
    no amount. *)
Definition second_spin_begins : list label :=
  spin_cycle ++ [CloseModal; ClickSpin] ++ ticks 15.

Definition late_receipt : list label :=
  second_spin_begins ++
  [Receipt "0xabc"; Render] ++ ticks 24 ++ [Fire RootTimeout; Render].

Example late_receipt_spin :
  now (state_after late_receipt) = (4000 + 4000)%nat /\
  Root.isSpinning (root (state_after late_receipt)) = false /\
  history (state_after late_receipt) =
    [Started; AmountReported 1.00%Q; Stopped; Closed;
     Started; ReceiptReported "0xabc"; Stopped] /\
  Root.dialog_rendered (root (state_after late_receipt)) = false.
Proof. vm_compute. repeat split; reflexivity. Qed.

(** A spin whose last timers run as one late batch, and the page after the
    dialog it opened has been closed. *)
Definition after_late_batch : State := state_after (ClickSpin :: late_batch).
Definition reopened : State :=
  state_after (ClickSpin :: late_batch ++ [CloseModal]).

Lemma reopened_reachable : reachable draws reopened.
Proof. exists (ClickSpin :: late_batch ++ [CloseModal]). vm_compute. reflexivity. Qed.

Example after_late_batch_root :
  root after_late_batch =
  {| Root.isSpinning := false; Root.selectedAmount := Some 1.00%Q;
     Root.selectedCharity := Some unicef; Root.showModal := true;
     Root.txHash := None |} /\
  history after_late_batch =
    [Started; AmountReported 1.00%Q; Stopped; CharityReported unicef] /\
  now after_late_batch = 4000%nat.
Proof. vm_compute. repeat split; reflexivity. Qed.

End Scenario.

(* ------------------------------------------------------------------ *)
(** * The claims *)

Import Data.
Open Scope list_scope.

(** ** C1: when the dialog is rendered *)

(** What C1 takes for the condition: since the last spin started, both the
    amount and the charity have been reported and the dialog has not been
    closed.  The triple is (amount reported, charity reported, closed). *)
Definition completion_step (acc : bool * bool * bool) (e : App.event)
    : bool * bool * bool :=
  let '(a, c, d) := acc in
  match e with
  | App.Started => (false, false, false)
  | App.AmountReported _ => (true, c, d)
  | App.CharityReported _ => (a, true, d)
  | App.Closed => (a, c, true)
  | _ => acc
  end.

Definition completed_and_open (h : list App.event) : bool :=
  let '(a, c, d) := fold_left completion_step h (false, false, false) in
  a && c && negb d.

(** C1 as stated fails: 3900 ms after the click the dialog is rendered, the
    amount has been reported and the charity has not. *)
Lemma C1_dialog_open_before_charity_reported :
  App.reachable Scenario.draws Scenario.at_reveal /\
  App.now Scenario.at_reveal = 3900%nat /\
  Root.dialog_rendered (App.root Scenario.at_reveal) = true /\
  App.history Scenario.at_reveal = [App.Started; App.AmountReported 1.00%Q] /\
  completed_and_open (App.history Scenario.at_reveal) = false.
Proof.
  split; [apply Scenario.at_reveal_reachable|].
  vm_compute. repeat split; reflexivity.
Qed.

(** C1, amended: in every reachable state the dialog is rendered if and only
    if an amount has been reported and, since that report, no new spin has
    started and the dialog has not been closed; reports of a charity play no
    part. *)
Theorem C1_dialog_iff_amount_reported_and_not_closed
    (rs : Rng.stream) (s : App.State) :
  App.reachable rs s ->
  (Root.dialog_rendered (App.root s) = true <->
   exists pre a post,
     App.history s = pre ++ App.AmountReported a :: post /\
     Forall (fun e => e <> App.Started /\ e <> App.Closed) post).
Proof.
  intros Hr. destruct (AppFacts.Inv_reachable Hr) as [HR _].
  rewrite (AppFacts.rendered_is_showModal HR).
  rewrite <- (AppFacts.inv_pending HR).
  apply AppFacts.amount_pending_spec.
Qed.

(** The amended C1 at the state 3900 ms after the first click. *)
Lemma C1_amended_at_reveal :
  Root.dialog_rendered (App.root Scenario.at_reveal) = true <->
  exists pre a post,
    App.history Scenario.at_reveal = pre ++ App.AmountReported a :: post /\
    Forall (fun e => e <> App.Started /\ e <> App.Closed) post.
Proof.
  apply (@C1_dialog_iff_amount_reported_and_not_closed Scenario.draws Scenario.at_reveal).
  exists (App.ClickSpin :: App.until_reveal). vm_compute. reflexivity.
Defined.

(** ** C2: closing the dialog *)

(** The slots of [Home] once the spin of [Scenario] has stopped: the dialog
    is open. *)
Definition open_dialog_state : Root.State := App.root Scenario.at_stop.

(** C2 as stated fails: after [handleCloseModal] the amount and the charity
    are still there. *)
Lemma C2_close_leaves_amount_and_charity :
  App.reachable Scenario.draws Scenario.at_stop /\
  Root.dialog_rendered open_dialog_state = true /\
  Root.selectedAmount (Root.handleCloseModal open_dialog_state) = Some 1.00%Q /\
  Root.selectedCharity (Root.handleCloseModal open_dialog_state) = Some water_org.
Proof.
  split; [apply Scenario.at_stop_reachable|].
  vm_compute. repeat split; reflexivity.
Qed.

(** C2, amended: closing the dialog hides it and changes nothing else; the
    spinning flag, the amount, the charity and the receipt keep their
    values. *)
Theorem C2_close_only_hides_dialog (s : Root.State) :
  let s' := Root.handleCloseModal s in
  Root.showModal s' = false /\
  Root.dialog_rendered s' = false /\
  Root.isSpinning s' = Root.isSpinning s /\
  Root.selectedAmount s' = Root.selectedAmount s /\
  Root.selectedCharity s' = Root.selectedCharity s /\
  Root.txHash s' = Root.txHash s.
Proof. simpl. repeat split; reflexivity. Qed.

(** ** C3: starting a spin *)

(** C3 as stated fails: the very first click leaves the charity in place. *)
Lemma C3_start_keeps_charity :
  Root.spin_button_disabled Root.initial = false /\
  Root.selectedCharity (fst (Root.clickSpin Root.initial)) = Some water_org.
Proof. split; reflexivity. Qed.

(** C3, amended: wherever the spin button is enabled, a click clears the
    amount and the receipt, hides the dialog, sets the spinning flag,
    schedules the 4000 ms timeout, and keeps the charity. *)
Theorem C3_start_clears_amount_and_receipt (s : Root.State) :
  Root.spin_button_disabled s = false ->
  let s' := fst (Root.clickSpin s) in
  Root.selectedAmount s' = None /\
  Root.txHash s' = None /\
  Root.showModal s' = false /\
  Root.isSpinning s' = true /\
  Root.selectedCharity s' = Root.selectedCharity s /\
  snd (Root.clickSpin s) = true.
Proof.
  intros Hd. unfold Root.clickSpin. rewrite Hd.
  unfold Root.spin_button_disabled in Hd. apply orb_false_iff in Hd as [Hs _].
  unfold Root.handleStartSpin. rewrite Hs. simpl. repeat split; reflexivity.
Qed.

(** The amended C3 at the first click on the fresh page. *)
Lemma C3_amended_at_first_click :
  let s' := fst (Root.clickSpin Root.initial) in
  Root.selectedAmount s' = None /\
  Root.txHash s' = None /\
  Root.showModal s' = false /\
  Root.isSpinning s' = true /\
  Root.selectedCharity s' = Root.selectedCharity Root.initial /\
  snd (Root.clickSpin Root.initial) = true.
Proof. apply (@C3_start_clears_amount_and_receipt Root.initial). reflexivity. Defined.

(** ** C4: a click while spinning or while the dialog is open *)

(** C4: while the spinning flag is set or the dialog is rendered, a click on
    the spin button changes nothing: not the slots of [Home], not the
    selectors, not the pending timers; no timeout is scheduled.  While the
    flag is set [handleStartSpin] itself returns at once; while only the
    dialog is open it is the disabled button that rejects the click. *)
Theorem C4_rejected_click_is_noop (rs : Rng.stream) (s : App.State) :
  Root.isSpinning (App.root s) = true \/
  Root.dialog_rendered (App.root s) = true ->
  App.step rs App.ClickSpin s = Some s /\
  Root.clickSpin (App.root s) = (App.root s, false) /\
  (Root.isSpinning (App.root s) = true ->
   Root.handleStartSpin (App.root s) = (App.root s, false)).
Proof.
  intros H.
  assert (Hd : Root.spin_button_disabled (App.root s) = true).
  { unfold Root.spin_button_disabled. destruct H as [->|H]; [reflexivity|].
    unfold Root.dialog_rendered in H. apply andb_true_iff in H as [H _].
    apply andb_true_iff in H as [-> _]. apply orb_true_r. }
  simpl. unfold App.clickSpin, Root.clickSpin. rewrite Hd.
  split; [reflexivity|]. split; [reflexivity|].
  intros Hs. unfold Root.handleStartSpin. rewrite Hs. reflexivity.
Qed.

(** C4 at the state 3900 ms after the first click: the flag is set and the
    dialog is open. *)
Lemma C4_click_during_reveal :
  App.step Scenario.draws App.ClickSpin Scenario.at_reveal = Some Scenario.at_reveal /\
  Root.clickSpin (App.root Scenario.at_reveal) = (App.root Scenario.at_reveal, false).
Proof.
  destruct (@C4_rejected_click_is_noop Scenario.draws Scenario.at_reveal) as (H1 & H2 & _).
  - left. vm_compute. reflexivity.
  - split; [exact H1|exact H2].
Defined.

(** ** C5: the amount selector *)

(** C5 does not hold of the page.  In the run [Scenario.late_receipt] the
    second spin is started while a donation made in the first dialog is
    still on its way.  1500 ms into the spin the receipt arrives, [Home]
    renders again with new callbacks, and the spinner's effect is torn down
    and run again: the timeout due 3900 ms after the click is cleared and a
    new one is set for 3900 ms after the render.  The spin stops 4000 ms
    after its click, the cleanup clears that timeout too, and
    [onSpinComplete] has not been called: the spin ran its 4000 ms and
    reported no amount; no dialog opens. *)
Lemma C5_spin_with_late_receipt_reports_no_amount :
  let before := Scenario.state_after (App.spin_cycle ++ [App.CloseModal]) in
  let mid := Scenario.state_after Scenario.second_spin_begins in
  let rerun :=
    Scenario.state_after
      (Scenario.second_spin_begins ++ [App.Receipt "0xabc"; App.Render]) in
  let after := Scenario.state_after Scenario.late_receipt in
  App.steps Scenario.draws Scenario.late_receipt App.initial = Some after /\
  Root.spin_button_disabled (App.root before) = false /\
  App.now before = 4000%nat /\
  App.now mid = (4000 + 1500)%nat /\
  Timer.due_of (Spinner.spinTimeoutRef (App.spinner mid)) = Some (4000 + 3900)%nat /\
  Timer.due_of (Spinner.spinTimeoutRef (App.spinner rerun)) =
    Some (4000 + 1500 + 3900)%nat /\
  App.now after = (4000 + 4000)%nat /\
  Root.isSpinning (App.root after) = false /\
  Spinner.spinTimeoutRef (App.spinner after) = None /\
  App.history after =
    App.history before ++
    [App.Started; App.ReceiptReported "0xabc"; App.Stopped] /\
  Root.selectedAmount (App.root after) = None /\
  Root.dialog_rendered (App.root after) = false.
Proof. vm_compute. repeat split; reflexivity. Qed.

(** ** C6: the charity selector *)

(** C6 does not hold of the page.  In the run of [Scenario] the picker draws
    UNICEF when the spin starts and schedules its report for 4000 ms.  At
    3900 ms the spinner reports the amount, [Home] renders again with new
    callbacks, and both effects are torn down and run again: the picker
    cancels that timeout, draws anew (World Wildlife Fund) and schedules a
    report for 7900 ms, which the end of the spin at 4000 ms cancels as well.
    [handleCharitySelected] is never called; the picker ends up showing its
    second draw and [Home] still holds [CHARITIES[0]]. *)
Lemma C6_charity_never_reported_in_a_spin :
  Picker.drawCharity (Scenario.draws 0) = unicef /\
  Timer.due_of (Picker.revealTimeout (App.picker Scenario.at_reveal)) =
    Some (3900 + 4000)%nat /\
  App.steps Scenario.draws App.spin_cycle App.initial = Some Scenario.at_stop /\
  App.now Scenario.at_stop = 4000%nat /\
  Root.isSpinning (App.root Scenario.at_stop) = false /\
  App.history Scenario.at_stop =
    [App.Started; App.AmountReported 1.00%Q; App.Stopped] /\
  Picker.revealTimeout (App.picker Scenario.at_stop) = None /\
  Picker.finalCharity (App.picker Scenario.at_stop) = Some wwf /\
  Picker.display false (App.picker Scenario.at_stop) = "World Wildlife Fund"%string /\
  Root.selectedCharity (App.root Scenario.at_stop) = Some water_org.
Proof. vm_compute. repeat split; reflexivity. Qed.

(** ** C7: timers do not outlive their spin *)

(** C7 does not hold of the page.  The selectors cancel their own timers
    whenever their effect is torn down, but the 1500 ms timer of
    [sendDonation] is cancelled by nothing and its continuation is guarded by
    nothing.  In the run [Scenario.late_receipt] it was started in the dialog
    of the first spin; it ends 1500 ms into the second spin and
    [handleDonationComplete] writes the receipt slot that the start of this
    spin had cleared; the render that follows tears both selectors down and
    sets them up again with new draws.  Nor is a selector's own callback
    tied to the spinning flag: in [Scenario.after_late_batch] the root's
    timeout has turned the flag off when the picker's timeout, still
    pending, calls [handleCharitySelected]. *)
Lemma C7_earlier_donation_writes_into_the_next_spin :
  let mid := Scenario.state_after Scenario.second_spin_begins in
  let hit :=
    Scenario.state_after (Scenario.second_spin_begins ++ [App.Receipt "0xabc"]) in
  let rerun :=
    Scenario.state_after
      (Scenario.second_spin_begins ++ [App.Receipt "0xabc"; App.Render]) in
  App.steps Scenario.draws
    (Scenario.second_spin_begins ++ [App.Receipt "0xabc"; App.Render])
    App.initial = Some rerun /\
  App.session mid = 2%nat /\
  Root.isSpinning (App.root mid) = true /\
  Root.txHash (App.root mid) = None /\
  Root.txHash (App.root hit) = Some "0xabc"%string /\
  Root.isSpinning (App.root hit) = true /\
  Timer.due_of (Picker.revealTimeout (App.picker mid)) = Some (4000 + 4000)%nat /\
  Timer.due_of (Picker.revealTimeout (App.picker rerun)) =
    Some (4000 + 1500 + 4000)%nat /\
  App.calls rerun = (App.calls mid + 3)%nat /\
  App.history Scenario.after_late_batch =
    [App.Started; App.AmountReported 1.00%Q; App.Stopped;
     App.CharityReported unicef].
Proof. vm_compute. repeat split; reflexivity. Qed.

(** ** C8: the donation stub *)

(** C8: whatever its arguments and whatever [Math.random] returns,
    [sendDonation] resolves with [success = true], no [error], and a
    [txHash] made of the prefix [0x] followed by 64 lower-case hexadecimal
    digits, the [i]-th of which is the digit [Math.floor(r * 16)] of the
    [i]-th of its 64 calls of [Math.random]; every string of 64 such digits
    is the outcome for some draws; the dialog never takes its failure branch
    on such a result, it passes the hash to [onDonationComplete], and with
    the hash stored by [handleDonationComplete] the dialog renders its
    completed view showing that hash. *)
Theorem C8_sendDonation_always_succeeds_with_hash
    (rs : Rng.stream) (k : nat) (walletId address : string) (amount : Q)
    (m : Modal.State) (p : Root.State) :
  let r := Wallet.sendDonation rs k walletId address amount in
  let after := Modal.handleDonateWithWallet_end (Modal.Resolved r) m in
  Wallet.success r = true /\
  Wallet.error r = None /\
  (exists digits,
     Wallet.txHash r = Some ("0x" ++ digits)%string /\
     String.length digits = 64%nat /\
     Wallet.all_chars Wallet.is_hex_char digits = true /\
     (forall i, (i < 64)%nat ->
        String.get i digits =
        Some (Wallet.hex_digit (Rng.floor_scaled (rs (k + i)%nat) 16)) /\
        (0 <= Rng.floor_scaled (rs (k + i)%nat) 16 < 16)%Z)) /\
  (forall ds : list Z,
     List.length ds = 64%nat -> Forall (fun d => (0 <= d < 16)%Z) ds ->
     exists rs',
       Wallet.txHash (Wallet.sendDonation rs' k walletId address amount) =
       Some ("0x" ++ String.concat ""
                       (map (fun d => String (Wallet.hex_digit d) "") ds))%string) /\
  Modal.caught (Modal.Resolved r) = None /\
  snd after = Wallet.txHash r /\
  (forall h, Wallet.txHash r = Some h ->
     Modal.render (Root.txHash (Root.handleDonationComplete h p)) (fst after)
     = Modal.Complete h).
Proof.
  intros r after.
  destruct (WalletFacts.hash_digits_hex rs k) as [Hhex Hlen].
  destruct (WalletFacts.concat_hex Hhex) as [Hl Hc].
  assert (Hcaught : Modal.caught (Modal.Resolved r) = None) by reflexivity.
  split; [reflexivity|]. split; [reflexivity|]. split.
  { exists (String.concat "" (Wallet.hash_digits rs k)).
    split; [reflexivity|]. split; [rewrite Hl; exact Hlen|].
    split; [exact Hc|]. intros i Hi. split.
    - apply WalletFacts.hash_digit_at, Hi.
    - apply Rng.floor_scaled_16. }
  split.
  { intros ds Hlen' Hds.
    destruct (WalletFacts.every_hash_is_drawn k Hlen' Hds) as [rs' E].
    exists rs'. unfold Wallet.sendDonation. cbn [Wallet.txHash].
    rewrite E. reflexivity. }
  split; [exact Hcaught|]. split.
  { unfold after, Modal.handleDonateWithWallet_end. rewrite Hcaught. reflexivity. }
  intros h Hh. unfold after, Modal.handleDonateWithWallet_end. rewrite Hcaught.
  simpl in Hh. injection Hh as <-. reflexivity.
Qed.

(** ** C9: a failed donation *)

Definition donation_failed (o : Modal.outcome) : Prop :=
  match o with
  | Modal.Rejected _ => True
  | Modal.Resolved r => Wallet.success r = false
  end.

(** The dialog while the promise of an attempt is pending. *)
Definition processing_dialog : Modal.State :=
  fst (Modal.handleDonateWithWallet_begin "metamask" 1.00%Q (Modal.mount water_org)).

(** C9 does not hold of the dialog: when the promise rejects with an
    [Error] whose message is empty, [catch] stores the empty string, the
    test [error ? ... : ...] of the render takes it for no error, and the
    dialog goes straight back to the wallet list: no message, no retry
    control.  The other two paths of the handler put a default text in
    place of a missing one. *)
Lemma C9_empty_message_shows_wallet_list :
  let o := Modal.Rejected (Modal.ErrorObject "") in
  donation_failed o /\
  Modal.render None (fst (Modal.handleDonateWithWallet_end o processing_dialog))
  = Modal.WalletList wallets.
Proof. split; [exact I|reflexivity]. Qed.

Lemma error_or_default_nonempty (e : option string) :
  Modal.error_or_default e <> ""%string.
Proof.
  unfold Modal.error_or_default. destruct e as [[|c m]|]; simpl; discriminate.
Qed.

(** Every other failure is surfaced: when the promise rejects with anything
    but an [Error] of empty message, or resolves with [success = false], the
    dialog does not call [onDonationComplete], shows a non-empty message with
    the retry control, and the retry control brings back the wallet list
    without starting an attempt. *)
Theorem C9_failure_shows_message_and_retry (o : Modal.outcome) (m : Modal.State) :
  donation_failed o ->
  o <> Modal.Rejected (Modal.ErrorObject "") ->
  let m' := fst (Modal.handleDonateWithWallet_end o m) in
  snd (Modal.handleDonateWithWallet_end o m) = None /\
  exists message,
    message <> ""%string /\
    Modal.render None m' = Modal.ErrorView message /\
    Modal.render None (Modal.tryAgain m') = Modal.WalletList (Modal.availableWallets m) /\
    Modal.isProcessing (Modal.tryAgain m') = false.
Proof.
  intros Hf Hne.
  assert (Hc : exists e, Modal.caught o = Some e /\ Modal.message_of e <> ""%string).
  { destruct o as [r|[msg|]]; simpl in *.
    - rewrite Hf. simpl. eexists. split; [reflexivity|]. simpl.
      apply error_or_default_nonempty.
    - exists (Modal.ErrorObject msg). split; [reflexivity|]. simpl. congruence.
    - exists Modal.OtherValue. split; [reflexivity|]. discriminate. }
  destruct Hc as (e & Hc & Hm).
  unfold Modal.handleDonateWithWallet_end. rewrite Hc. cbn [fst snd].
  split; [reflexivity|]. exists (Modal.message_of e).
  split; [exact Hm|]. unfold Modal.render, Modal.tryAgain.
  cbn [Modal.isProcessing Modal.error Modal.availableWallets Modal.truthy].
  destruct (Modal.message_of e); [congruence|]. repeat split; reflexivity.
Qed.

(** A promise rejected with a value that is not an [Error]. *)
Lemma C9_rejected_with_a_non_error :
  let m' := fst (Modal.handleDonateWithWallet_end (Modal.Rejected Modal.OtherValue)
                   processing_dialog) in
  snd (Modal.handleDonateWithWallet_end (Modal.Rejected Modal.OtherValue)
         processing_dialog) = None /\
  exists message,
    message <> ""%string /\
    Modal.render None m' = Modal.ErrorView message /\
    Modal.render None (Modal.tryAgain m') =
      Modal.WalletList (Modal.availableWallets processing_dialog) /\
    Modal.isProcessing (Modal.tryAgain m') = false.
Proof.
  apply (@C9_failure_shows_message_and_retry (Modal.Rejected Modal.OtherValue)
           processing_dialog).
  - exact I.
  - discriminate.
Defined.

(** ** C10: the charity slot *)



(* ------------------------------------------------------------------ *)
(** * More of the code *)

(** ** The arithmetic of the spinner *)

Module SpinnerArithmetic.

Open Scope Q_scope.

Unset Implicit Arguments.

Lemma segmentAngle_45 : Spinner.segmentAngle == 45.
Proof. vm_compute. reflexivity. Qed.

(** The ticker for each of the thousand values of [Date.now() % 1000],
    by evaluation. *)
Lemma ticker_table :
  forallb (fun n => Z.eqb (Spinner.tickerIndex n) (Z.of_nat (n / 125)))
          (seq 0 1000) = true.
Proof. vm_compute. reflexivity. Qed.

Lemma ticker_at (n : nat) :
  (n < 1000)%nat -> Spinner.tickerIndex n = Z.of_nat (n / 125).
Proof.
  intros Hn. apply Z.eqb_eq.
  apply (proj1 (forallb_forall _ _) ticker_table n).
  apply in_seq. lia.
Qed.

Lemma tickerIndex_mod (now : nat) :
  Spinner.tickerIndex now = Spinner.tickerIndex (now mod 1000).
Proof.
  unfold Spinner.tickerIndex. rewrite Nat.Div0.mod_mod. reflexivity.
Qed.

(** The amount shown while the wheel turns depends on the clock alone: the
    table is run through once a second, 125 ms per entry. *)
Lemma tickerIndex_closed_form (now : nat) :
  Spinner.tickerIndex now = Z.of_nat ((now mod 1000) / 125).
Proof.
  rewrite tickerIndex_mod. apply ticker_at. apply Nat.mod_upper_bound; lia.
Qed.

Lemma tickerIndex_range (now : nat) : (0 <= Spinner.tickerIndex now < 8)%Z.
Proof.
  rewrite tickerIndex_closed_form.
  assert ((now mod 1000) / 125 < 8)%nat.
  { apply Nat.Div0.div_lt_upper_bound.
    pose proof (Nat.mod_upper_bound now 1000). lia. }
  lia.
Qed.

(** Every amount of the table can be the outcome of a spin. *)
Theorem every_amount_can_be_selected (a : Q) :
  In a Data.DONATION_AMOUNTS -> exists r1 r2, Spinner.selectedSegment r1 r2 = a.
Proof.
  intros H. simpl in H.
  destruct H as [<-|[<-|[<-|[<-|[<-|[<-|[<-|[<-|[]]]]]]]]].
  - exists Rng.zero, (Rng.draw_or_zero 0 8). vm_compute. reflexivity.
  - exists Rng.zero, (Rng.draw_or_zero 1 8). vm_compute. reflexivity.
  - exists Rng.zero, (Rng.draw_or_zero 2 8). vm_compute. reflexivity.
  - exists Rng.zero, (Rng.draw_or_zero 3 8). vm_compute. reflexivity.
  - exists Rng.zero, (Rng.draw_or_zero 4 8). vm_compute. reflexivity.
  - exists Rng.zero, (Rng.draw_or_zero 5 8). vm_compute. reflexivity.
  - exists Rng.zero, (Rng.draw_or_zero 6 8). vm_compute. reflexivity.
  - exists Rng.zero, (Rng.draw_or_zero 7 8). vm_compute. reflexivity.
Qed.

Lemma every_amount_can_be_selected_ten :
  exists r1 r2, Spinner.selectedSegment r1 r2 = 10.00.
Proof.
  apply (every_amount_can_be_selected 10.00). simpl. do 7 right. left. reflexivity.
Defined.

Set Implicit Arguments.

End SpinnerArithmetic.

(** ** What the page shows *)

Module PageFacts.

Import Data App.
Local Open Scope nat_scope.
Local Open Scope list_scope.

(** The hash of the last receipt since the last spin started. *)
Definition receipt_step (acc : option string) (e : event) : option string :=
  match e with
  | Started => None
  | ReceiptReported h => Some h
  | _ => acc
  end.

Definition last_receipt (h : list event) : option string :=
  fold_left receipt_step h None.

Lemma last_receipt_snoc h e :
  last_receipt (h ++ [e]) = receipt_step (last_receipt h) e.
Proof. unfold last_receipt. rewrite fold_left_app. reflexivity. Qed.

Definition amount_from_table (e : event) : Prop :=
  match e with
  | AmountReported a => In a DONATION_AMOUNTS
  | _ => True
  end.

Record Shown (s : State) : Prop := mkShown {
  sh_root_amount : forall a,
    Root.selectedAmount (root s) = Some a -> In a DONATION_AMOUNTS;
  sh_payload : forall tm,
    Spinner.spinTimeoutRef (spinner s) = Some tm ->
    In (Timer.payload tm) DONATION_AMOUNTS;
  sh_spinner_amount : forall a,
    Spinner.selectedAmount (spinner s) = Some a -> In a DONATION_AMOUNTS;
  sh_history : Forall amount_from_table (history s);
  sh_index : (0 <= Picker.currentIndex (picker s) < 6)%Z;
  sh_final : forall c,
    Picker.finalCharity (picker s) = Some c -> In c CHARITIES;
  sh_receipt : Root.txHash (root s) = last_receipt (history s)
}.

Lemma Shown_initial : Shown initial.
Proof.
  constructor; simpl; try discriminate; try reflexivity.
  - constructor.
  - lia.
Qed.

Section Steps.

Variable rs : Rng.stream.

Lemma Shown_runEffects s : Shown s -> Shown (runEffects rs s).
Proof.
  intros [H1 H2 H3 H4 H5 H6 H7].
  constructor; unfold runEffects; cbn [root spinner picker history].
  - exact H1.
  - destruct (Root.isSpinning (root s)); simpl; intros tm E.
    + injection E as <-. simpl. apply SelectionFacts.selectedSegment_in.
    + discriminate E.
  - destruct (Root.isSpinning (root s)); simpl; intros a E.
    + discriminate E.
    + apply H3, E.
  - exact H4.
  - destruct (Root.isSpinning (root s)); simpl; exact H5.
  - destruct (Root.isSpinning (root s)); simpl; intros c E.
    + injection E as <-. apply SelectionFacts.drawCharity_in.
    + apply H6, E.
  - exact H7.
Qed.

Lemma Shown_flush s : Shown s -> Shown (flush rs s).
Proof.
  intros H. destruct (AppFacts.flush_cases rs s) as [[_ ->]|[_ ->]];
    [exact H|apply Shown_runEffects, H].
Qed.

Lemma Shown_step s l s' : Shown s -> step rs l s = Some s' -> Shown s'.
Proof.
  intros HS H. pose proof HS as [H1 H2 H3 H4 H5 H6 H7].
  destruct l as [| |h|t| |d]; cbv beta iota delta [step] in H.
  - injection H as <-. unfold clickSpin, Root.clickSpin, Root.handleStartSpin.
    destruct (Root.spin_button_disabled (root s)); [exact HS|].
    destruct (Root.isSpinning (root s)); [exact HS|].
    pose proof (Shown_flush HS) as [G1 G2 G3 G4 G5 G6 G7].
    apply Shown_flush. constructor; simpl; try assumption; try discriminate.
    + apply Forall_app. split; [exact G4|]. repeat constructor.
    + rewrite last_receipt_snoc. reflexivity.
  - apply AppFacts.guard_some in H as [_ ->]. unfold closeModal.
    pose proof (Shown_flush HS) as [G1 G2 G3 G4 G5 G6 G7].
    apply Shown_flush. constructor; simpl; try assumption.
    + apply Forall_app. split; [exact G4|]. repeat constructor.
    + rewrite last_receipt_snoc. exact G7.
  - injection H as <-. unfold receipt.
    constructor; simpl; try assumption.
    + apply Forall_app. split; [exact H4|]. repeat constructor.
    + rewrite last_receipt_snoc. reflexivity.
  - destruct t.
    + destruct (rootTimers s) as [|tm rest]; [discriminate|].
      apply AppFacts.guard_some in H as [_ ->]. unfold fireRoot.
      constructor; simpl; try assumption.
      * apply Forall_app. split; [exact H4|]. repeat constructor.
      * rewrite last_receipt_snoc. exact H7.
    + destruct (Spinner.spinIntervalRef (spinner s)) as [tm|]; [|discriminate].
      apply AppFacts.guard_some in H as [_ ->].
      constructor; simpl; try assumption.
      intros a E. injection E as <-.
      apply SelectionFacts.segment_at_in, SpinnerArithmetic.tickerIndex_range.
    + destruct (Spinner.spinTimeoutRef (spinner s)) as [tm|] eqn:Et; [|discriminate].
      apply AppFacts.guard_some in H as [_ ->]. unfold fireSpinnerTimeout.
      cbn [Spinner.revealTimeout].
      constructor; simpl; try assumption; try discriminate.
      * intros a E. injection E as <-. apply H2. reflexivity.
      * intros a E. injection E as <-. apply H2. reflexivity.
      * apply Forall_app. split; [exact H4|]. constructor; [|constructor].
        simpl. apply H2. reflexivity.
      * rewrite last_receipt_snoc. exact H7.
    + destruct (Picker.spinInterval (picker s)) as [tm|]; [|discriminate].
      apply AppFacts.guard_some in H as [_ ->].
      constructor; simpl; try assumption.
      change Picker.charityCount with 6%Z.
      split; [apply Z.rem_nonneg; lia|apply Z.rem_bound_pos; lia].
    + destruct (Picker.revealTimeout (picker s)) as [tm|]; [|discriminate].
      apply AppFacts.guard_some in H as [_ ->]. unfold firePickerTimeout.
      cbn [Picker.revealFire].
      constructor; simpl; try assumption.
      * apply Forall_app. split; [exact H4|]. repeat constructor.
      * rewrite last_receipt_snoc. exact H7.
  - injection H as <-. apply Shown_flush, HS.
  - injection H as <-. constructor; simpl; assumption.
Qed.

Lemma Shown_reachable s : reachable rs s -> Shown s.
Proof.
  intros [tr H]. revert H. generalize initial, Shown_initial.
  induction tr as [|l tr IH]; simpl; intros s0 H0 H.
  - injection H as <-. exact H0.
  - destruct (step rs l s0) as [s1|] eqn:E; [|discriminate].
    apply (IH s1); [eapply Shown_step; eassumption|exact H].
Qed.

End Steps.

(** No amount outside the table is ever shown or reported: in every
    reachable state of the page, the amount slot of [Home], the amount the
    spinner displays and every amount passed to [handleSpinComplete] so far
    are entries of [DONATION_AMOUNTS]. *)
Theorem amounts_shown_are_table_entries (rs : Rng.stream) (s : State) :
  reachable rs s ->
  (forall a, Root.selectedAmount (root s) = Some a -> In a DONATION_AMOUNTS) /\
  (forall a, Spinner.selectedAmount (spinner s) = Some a -> In a DONATION_AMOUNTS) /\
  (forall a, In (AmountReported a) (history s) -> In a DONATION_AMOUNTS).
Proof.
  intros Hr. destruct (Shown_reachable Hr) as [H1 _ H3 H4 _ _ _].
  split; [exact H1|]. split; [exact H3|].
  intros a Ha. rewrite Forall_forall in H4. apply (H4 _ Ha).
Qed.

Lemma amounts_shown_after_first_spin :
  (forall a, Root.selectedAmount (root Scenario.at_stop) = Some a -> In a DONATION_AMOUNTS) /\
  (forall a, Spinner.selectedAmount (spinner Scenario.at_stop) = Some a ->
             In a DONATION_AMOUNTS) /\
  (forall a, In (AmountReported a) (history Scenario.at_stop) -> In a DONATION_AMOUNTS).
Proof.
  apply (@amounts_shown_are_table_entries Scenario.draws Scenario.at_stop).
  exists spin_cycle. vm_compute. reflexivity.
Defined.

(** The picker never reads outside the table: in every reachable state its
    index lies in 0..5 and the text it renders, spinning or not, is the name
    of an entry of [CHARITIES]. *)
Theorem picker_always_shows_a_table_entry (rs : Rng.stream) (s : State) (b : bool) :
  reachable rs s ->
  (0 <= Picker.currentIndex (picker s) < 6)%Z /\
  exists c, In c CHARITIES /\ Picker.display b (picker s) = name c.
Proof.
  intros Hr. destruct (Shown_reachable Hr) as [_ _ _ _ H5 H6 _].
  split; [exact H5|]. unfold Picker.display. destruct b.
  - eexists. split; [|reflexivity]. apply SelectionFacts.charity_at_in, H5.
  - destruct (Picker.finalCharity (picker s)) as [c|] eqn:E.
    + exists c. split; [apply H6; reflexivity|reflexivity].
    + exists CHARITIES_0. split; [simpl; auto|reflexivity].
Qed.

Lemma picker_shows_a_table_entry_at_reveal :
  (0 <= Picker.currentIndex (picker Scenario.at_reveal) < 6)%Z /\
  exists c, In c CHARITIES /\ Picker.display true (picker Scenario.at_reveal) = name c.
Proof.
  apply (@picker_always_shows_a_table_entry Scenario.draws Scenario.at_reveal true).
  exists (ClickSpin :: until_reveal). vm_compute. reflexivity.
Defined.

(** The receipt slot of [Home] holds the hash of the last call of
    [handleDonationComplete] since the last spin started, whichever dialog
    the donation was made in; neither the reveal nor closing the dialog
    clears it.  So a dialog that opens while such a hash is in the slot
    shows its completed view at once. *)
Theorem receipt_slot_is_last_receipt (rs : Rng.stream) (s : State) (m : Modal.State) :
  reachable rs s ->
  Root.txHash (root s) = last_receipt (history s) /\
  (forall h, last_receipt (history s) = Some h -> h <> ""%string ->
             Modal.render (Root.txHash (root s)) m = Modal.Complete h).
Proof.
  intros Hr. destruct (Shown_reachable Hr) as [_ _ _ _ _ _ H7].
  split; [exact H7|]. intros h Hh Hne. rewrite H7, Hh.
  unfold Modal.render. destruct h; [congruence|reflexivity].
Qed.

(** A receipt that arrives during the second spin of [Scenario.late_receipt]
    is still in the slot when that spin has stopped. *)
Lemma receipt_slot_after_late_receipt :
  Root.txHash (root (Scenario.state_after Scenario.late_receipt)) =
  last_receipt (history (Scenario.state_after Scenario.late_receipt)) /\
  (forall h, last_receipt (history (Scenario.state_after Scenario.late_receipt)) = Some h ->
             h <> ""%string ->
             Modal.render (Root.txHash (root (Scenario.state_after Scenario.late_receipt)))
               (Modal.mount water_org) = Modal.Complete h).
Proof.
  apply (@receipt_slot_is_last_receipt Scenario.draws
           (Scenario.state_after Scenario.late_receipt) (Modal.mount water_org)).
  exists Scenario.late_receipt. vm_compute. reflexivity.
Defined.

(** The spinning flag is set exactly while the one timeout of
    [handleStartSpin] is pending: never two of them, never the flag without
    its timeout; the timeout belongs to the current spin and is due at most
    4000 ms from now. *)
Theorem one_stop_timeout_while_spinning (rs : Rng.stream) (s : State) :
  reachable rs s ->
  (Root.isSpinning (root s) = false -> rootTimers s = []) /\
  (Root.isSpinning (root s) = true ->
   exists D, rootTimers s = [Timer.mk D (session s) tt] /\ D <= now s + 4000).
Proof.
  intros Hr. destruct (AppFacts.Inv_reachable Hr) as [_ HT]. split.
  - exact (AppFacts.ti_idle HT).
  - exact (AppFacts.ti_spin HT).
Qed.

Lemma one_stop_timeout_at_reveal :
  (Root.isSpinning (root Scenario.at_reveal) = false -> rootTimers Scenario.at_reveal = []) /\
  (Root.isSpinning (root Scenario.at_reveal) = true ->
   exists D, rootTimers Scenario.at_reveal =
               [Timer.mk D (session Scenario.at_reveal) tt] /\
             D <= now Scenario.at_reveal + 4000).
Proof.
  apply (@one_stop_timeout_while_spinning Scenario.draws Scenario.at_reveal).
  exists (ClickSpin :: until_reveal). vm_compute. reflexivity.
Defined.

End PageFacts.

(** ** Every spin can stop *)

Module Liveness.

Import Data App.
Local Open Scope nat_scope.
Local Open Scope list_scope.

Definition root_due (s : State) : nat :=
  match rootTimers s with tm :: _ => Timer.due tm | [] => 0 end.

(** Firings an interval still has before the root timeout is due. *)
Definition ticks_left (D : nat) (o : option (Timer.t unit)) : nat :=
  match o with
  | Some tm => if Timer.due tm <? D then S ((D - Timer.due tm) / 100) else 0
  | None => 0
  end.

(** Whether a timeout is to run before the root timeout. *)
Definition once {A} (D : nat) (o : option (Timer.t A)) : nat :=
  match o with
  | Some tm => if Timer.due tm <? D then 1 else 0
  | None => 0
  end.

(** The number of firings of the selectors' timers that come before the
    root timeout when no render comes between. *)
Definition mu (s : State) : nat :=
  ticks_left (root_due s) (Spinner.spinIntervalRef (spinner s)) +
  once (root_due s) (Spinner.spinTimeoutRef (spinner s)) +
  ticks_left (root_due s) (Picker.spinInterval (picker s)) +
  once (root_due s) (Picker.revealTimeout (picker s)).

Definition is_fire (l : label) : bool :=
  match l with Fire _ => true | _ => false end.

Lemma ticks_left_tick D (tm : Timer.t unit) ses :
  Timer.due tm < D ->
  ticks_left D (Some (Timer.mk (Timer.due tm + 100) ses tt)) < ticks_left D (Some tm).
Proof.
  intros H. unfold ticks_left. cbn [Timer.due].
  destruct (Nat.ltb_spec (Timer.due tm) D) as [_|]; [|lia].
  destruct (Nat.ltb_spec (Timer.due tm + 100) D) as [H1|]; [|lia].
  replace (D - Timer.due tm) with ((D - (Timer.due tm + 100)) + 1 * 100) by lia.
  rewrite Nat.div_add by lia. lia.
Qed.

Lemma ticks_left_late D (o : option (Timer.t unit)) tm :
  o = Some tm -> D <= Timer.due tm -> ticks_left D o = 0.
Proof.
  intros -> H. unfold ticks_left.
  destruct (Nat.ltb_spec (Timer.due tm) D); [lia|reflexivity].
Qed.

Lemma ticks_left_early D (tm : Timer.t unit) :
  Timer.due tm < D -> 0 < ticks_left D (Some tm).
Proof.
  intros H. unfold ticks_left.
  destruct (Nat.ltb_spec (Timer.due tm) D); lia.
Qed.

Lemma ticks_left_pos_inv D (o : option (Timer.t unit)) :
  0 < ticks_left D o -> exists tm, o = Some tm /\ Timer.due tm < D.
Proof.
  destruct o as [tm|]; simpl; [|lia].
  destruct (Nat.ltb_spec (Timer.due tm) D); [|lia]. intros _. exists tm. auto.
Qed.

Lemma once_pos_inv {A} D (o : option (Timer.t A)) :
  0 < once D o -> exists tm, o = Some tm /\ Timer.due tm < D.
Proof.
  destruct o as [tm|]; simpl; [|lia].
  destruct (Nat.ltb_spec (Timer.due tm) D); [|lia]. intros _. exists tm. auto.
Qed.

Lemma once_early {A} D (tm : Timer.t A) :
  Timer.due tm < D -> once D (Some tm) = 1.
Proof.
  intros H. unfold once. destruct (Nat.ltb_spec (Timer.due tm) D); [reflexivity|lia].
Qed.

(** The due times of the selectors' pending timers. *)
Definition entry (t : timer_id) (o : option nat) : list (timer_id * nat) :=
  match o with Some d => [(t, d)] | None => [] end.

Definition pending (s : State) : list (timer_id * nat) :=
  entry SpinnerInterval (Timer.due_of (Spinner.spinIntervalRef (spinner s))) ++
  entry SpinnerTimeout (Timer.due_of (Spinner.spinTimeoutRef (spinner s))) ++
  entry PickerInterval (Timer.due_of (Picker.spinInterval (picker s))) ++
  entry PickerTimeout (Timer.due_of (Picker.revealTimeout (picker s))).

Lemma first_of (l : list (timer_id * nat)) :
  l <> [] ->
  exists t d, In (t, d) l /\ forall t' d', In (t', d') l -> d <= d'.
Proof.
  induction l as [|[t d] l IH]; [congruence|]. intros _.
  destruct l as [|x l].
  - exists t, d. split; [left; reflexivity|].
    intros t' d' [E|[]]. injection E as _ <-. lia.
  - destruct IH as (t1 & d1 & Hin & Hmin); [discriminate|].
    destruct (Nat.le_gt_cases d d1) as [Hle|Hgt].
    + exists t, d. split; [left; reflexivity|].
      intros t' d' [E|H]; [injection E as _ <-; lia|].
      specialize (Hmin _ _ H). lia.
    + exists t1, d1. split; [right; exact Hin|].
      intros t' d' [E|H]; [injection E as _ <-; lia|].
      exact (Hmin _ _ H).
Qed.

Lemma in_entry t o t' d : In (t', d) (entry t o) -> t' = t /\ o = Some d.
Proof.
  destruct o as [x|]; simpl; [|contradiction].
  intros [E|[]]. injection E as <- <-. auto.
Qed.

Lemma in_pending s t d :
  In (t, d) (pending s) ->
  match t with
  | RootTimeout => False
  | SpinnerInterval => Timer.due_of (Spinner.spinIntervalRef (spinner s)) = Some d
  | SpinnerTimeout => Timer.due_of (Spinner.spinTimeoutRef (spinner s)) = Some d
  | PickerInterval => Timer.due_of (Picker.spinInterval (picker s)) = Some d
  | PickerTimeout => Timer.due_of (Picker.revealTimeout (picker s)) = Some d
  end.
Proof.
  unfold pending. rewrite !in_app_iff.
  intros [H|[H|[H|H]]]; apply in_entry in H as [-> H]; exact H.
Qed.

Lemma pending_intro s t d :
  match t with
  | RootTimeout => False
  | SpinnerInterval => Timer.due_of (Spinner.spinIntervalRef (spinner s)) = Some d
  | SpinnerTimeout => Timer.due_of (Spinner.spinTimeoutRef (spinner s)) = Some d
  | PickerInterval => Timer.due_of (Picker.spinInterval (picker s)) = Some d
  | PickerTimeout => Timer.due_of (Picker.revealTimeout (picker s)) = Some d
  end -> In (t, d) (pending s).
Proof.
  unfold pending. rewrite !in_app_iff.
  destruct t; intros H; try contradiction; rewrite H; simpl; auto.
Qed.

Lemma dues_pending s x :
  In x (dues s) ->
  In x (map (@Timer.due unit) (rootTimers s)) \/ exists t, In (t, x) (pending s).
Proof.
  unfold dues. rewrite !in_app_iff.
  intros [H|[H|[H|[H|H]]]]; [left; exact H| | | |]; right.
  - exists SpinnerInterval. apply pending_intro.
    destruct (Timer.due_of _) as [y|]; simpl in H; [|contradiction].
    destruct H as [<-|[]]. reflexivity.
  - exists SpinnerTimeout. apply pending_intro.
    destruct (Timer.due_of _) as [y|]; simpl in H; [|contradiction].
    destruct H as [<-|[]]. reflexivity.
  - exists PickerInterval. apply pending_intro.
    destruct (Timer.due_of _) as [y|]; simpl in H; [|contradiction].
    destruct H as [<-|[]]. reflexivity.
  - exists PickerTimeout. apply pending_intro.
    destruct (Timer.due_of _) as [y|]; simpl in H; [|contradiction].
    destruct H as [<-|[]]. reflexivity.
Qed.

Lemma due_of_some {A} (o : option (Timer.t A)) d :
  Timer.due_of o = Some d -> exists tm, o = Some tm /\ Timer.due tm = d.
Proof.
  destruct o as [tm|]; simpl; intros H; [|discriminate].
  injection H as <-. exists tm. auto.
Qed.

Section Stop.

Variable rs : Rng.stream.

(** With the flag set and nothing of the selectors due before it, the root
    timeout runs and clears the flag. *)
Lemma root_fires s D :
  rootTimers s = [Timer.mk D (session s) tt] ->
  (forall t d, In (t, d) (pending s) -> D <= d) ->
  exists s', step rs (Fire RootTimeout) s = Some s' /\
             Root.isSpinning (root s') = false /\
             now s' = Nat.max (now s) D.
Proof.
  intros Ht Hp. eexists. split.
  - cbv beta iota delta [step]. rewrite Ht. cbn [Timer.due].
    rewrite AppFacts.earliest_intro; [reflexivity|].
    intros x Hx. apply dues_pending in Hx as [Hx|[t Hx]].
    + rewrite Ht in Hx. simpl in Hx. destruct Hx as [<-|[]]. lia.
    + exact (Hp _ _ Hx).
  - split; reflexivity.
Qed.

(** Some timer of the selectors is due before the root timeout: the first
    of them runs, the flag stays set, the root timeout stays as it is and
    fewer firings remain. *)
Lemma selector_fires s D :
  rootTimers s = [Timer.mk D (session s) tt] ->
  0 < mu s ->
  exists t s',
    step rs (Fire t) s = Some s' /\
    root_due s' = root_due s /\
    Root.isSpinning (root s') = Root.isSpinning (root s) /\
    Nat.max (now s') D = Nat.max (now s) D /\
    mu s' < mu s.
Proof.
  intros Ht Hmu.
  assert (HD : root_due s = D) by (unfold root_due; rewrite Ht; reflexivity).
  assert (Hne : exists t d, In (t, d) (pending s) /\ d < D).
  { unfold mu in Hmu. rewrite HD in Hmu.
    assert (Hc :
      0 < ticks_left D (Spinner.spinIntervalRef (spinner s)) \/
      0 < once D (Spinner.spinTimeoutRef (spinner s)) \/
      0 < ticks_left D (Picker.spinInterval (picker s)) \/
      0 < once D (Picker.revealTimeout (picker s))) by lia.
    destruct Hc as [H|[H|[H|H]]].
    - apply ticks_left_pos_inv in H as (tm & E & Hlt).
      exists SpinnerInterval, (Timer.due tm). split; [|exact Hlt].
      apply pending_intro. rewrite E. reflexivity.
    - apply once_pos_inv in H as (tm & E & Hlt).
      exists SpinnerTimeout, (Timer.due tm). split; [|exact Hlt].
      apply pending_intro. rewrite E. reflexivity.
    - apply ticks_left_pos_inv in H as (tm & E & Hlt).
      exists PickerInterval, (Timer.due tm). split; [|exact Hlt].
      apply pending_intro. rewrite E. reflexivity.
    - apply once_pos_inv in H as (tm & E & Hlt).
      exists PickerTimeout, (Timer.due tm). split; [|exact Hlt].
      apply pending_intro. rewrite E. reflexivity. }
  destruct Hne as (t0 & d0 & Hin0 & Hlt0).
  assert (Hnil : pending s <> []) by (intros E; rewrite E in Hin0; contradiction).
  destruct (first_of Hnil) as (t & d & Hin & Hmin).
  assert (Hd : d < D) by (specialize (Hmin _ _ Hin0); lia).
  assert (He : earliest d s = true).
  { apply AppFacts.earliest_intro. intros x Hx.
    apply dues_pending in Hx as [Hx|[t' Hx]].
    - rewrite Ht in Hx. simpl in Hx. destruct Hx as [<-|[]]. lia.
    - exact (Hmin _ _ Hx). }
  exists t. apply in_pending in Hin.
  destruct t; [contradiction| | | |];
    apply due_of_some in Hin as (tm & Etm & Ed); subst d.
  - (* the spinner's interval *)
    eexists. split.
    { cbv beta iota delta [step]. rewrite Etm, He. reflexivity. }
    unfold mu, root_due, fireSpinnerInterval.
    cbn [root rootTimers spinner picker now Spinner.intervalTick
         Spinner.spinIntervalRef Spinner.spinTimeoutRef].
    rewrite Ht, Etm. cbn [Timer.due].
    split; [reflexivity|]. split; [reflexivity|]. split; [lia|].
    pose proof (@ticks_left_tick D tm (Timer.session tm) Hd) as Hdec.
    unfold Spinner.TICK. lia.
  - (* the spinner's timeout *)
    eexists. split.
    { cbv beta iota delta [step]. rewrite Etm, He. reflexivity. }
    unfold mu, root_due, fireSpinnerTimeout.
    cbn [Spinner.revealTimeout root rootTimers spinner picker now
         Spinner.spinIntervalRef Spinner.spinTimeoutRef].
    rewrite Ht, Etm. cbn [Timer.due].
    split; [reflexivity|]. split; [reflexivity|]. split; [lia|].
    rewrite (@once_early _ D tm Hd). cbn [ticks_left once]. lia.
  - (* the picker's interval *)
    eexists. split.
    { cbv beta iota delta [step]. rewrite Etm, He. reflexivity. }
    unfold mu, root_due, firePickerInterval.
    cbn [root rootTimers spinner picker now Picker.intervalTick
         Picker.spinInterval Picker.revealTimeout].
    rewrite Ht, Etm. cbn [Timer.due].
    split; [reflexivity|]. split; [reflexivity|]. split; [lia|].
    pose proof (@ticks_left_tick D tm (Timer.session tm) Hd) as Hdec.
    unfold Picker.TICK. lia.
  - (* the picker's timeout *)
    eexists. split.
    { cbv beta iota delta [step]. rewrite Etm, He. reflexivity. }
    unfold mu, root_due, firePickerTimeout.
    cbn [Picker.revealFire root rootTimers spinner picker now
         Picker.spinInterval Picker.revealTimeout].
    rewrite Ht, Etm. cbn [Timer.due].
    split; [reflexivity|]. split; [reflexivity|]. split; [lia|].
    rewrite (@once_early _ D tm Hd). cbn [once]. lia.
Qed.

Lemma nothing_early s D :
  root_due s = D -> mu s = 0 ->
  forall t d, In (t, d) (pending s) -> D <= d.
Proof.
  intros HD Hmu t d Hin. unfold mu in Hmu. rewrite HD in Hmu.
  apply in_pending in Hin.
  destruct (Nat.le_gt_cases D d) as [|Hlt]; [assumption|exfalso].
  destruct t; [contradiction| | | |];
    apply due_of_some in Hin as (tm & Etm & Ed); subst d; rewrite Etm in Hmu.
  - pose proof (@ticks_left_early D tm Hlt). lia.
  - rewrite (@once_early _ D tm Hlt) in Hmu. lia.
  - pose proof (@ticks_left_early D tm Hlt). lia.
  - rewrite (@once_early _ D tm Hlt) in Hmu. lia.
Qed.

Lemma stops_any n :
  forall s, AppFacts.Inv s -> Root.isSpinning (root s) = true -> mu s < n ->
  exists tr s',
    forallb is_fire tr = true /\
    steps rs tr s = Some s' /\
    Root.isSpinning (root s') = false /\
    now s' = Nat.max (now s) (root_due s).
Proof.
  induction n as [|n IH]; intros s HI Hs Hmu; [lia|].
  destruct HI as [HR HT].
  destruct (AppFacts.ti_spin HT Hs) as (D & Ht & HD).
  assert (HrD : root_due s = D) by (unfold root_due; rewrite Ht; reflexivity).
  destruct (Nat.eq_dec (mu s) 0) as [Hz|Hnz].
  - destruct (@root_fires s D Ht (@nothing_early s D HrD Hz)) as (s' & H1 & H2 & H3).
    exists [Fire RootTimeout], s'. split; [reflexivity|]. split.
    + cbn [steps]. rewrite H1. reflexivity.
    + split; [exact H2|]. rewrite HrD. exact H3.
  - destruct (@selector_fires s D Ht) as (t & s1 & H1 & H2 & H3 & H4 & H5); [lia|].
    assert (HI1 : AppFacts.Inv s1).
    { eapply AppFacts.Inv_step; [split; eassumption|exact H1]. }
    destruct (IH s1 HI1) as (tr & s' & G1 & G2 & G3 & G4); [congruence|lia|].
    exists (Fire t :: tr), s'. split; [exact G1|]. split.
    + cbn [steps]. rewrite H1. exact G2.
    + split; [exact G3|]. rewrite G4, H2, HrD. exact H4.
Qed.

End Stop.

(** No spin gets stuck: from every reachable state with the spinning flag
    set, letting the due timers run in the order of their due times clears
    the flag, and if none of them runs late this happens at the due time of
    the root timeout, at most 4000 ms from now. *)
Theorem every_spin_can_stop (rs : Rng.stream) (s : State) :
  reachable rs s -> Root.isSpinning (root s) = true ->
  exists tr s',
    forallb is_fire tr = true /\
    steps rs tr s = Some s' /\
    Root.isSpinning (root s') = false /\
    now s' = Nat.max (now s) (root_due s) /\
    now s' <= now s + 4000.
Proof.
  intros Hr Hs. pose proof (AppFacts.Inv_reachable Hr) as HI.
  destruct (@stops_any rs (S (mu s)) s HI Hs (Nat.lt_succ_diag_r _))
    as (tr & s' & H1 & H2 & H3 & H4).
  exists tr, s'. repeat (split; [assumption|]).
  destruct HI as [_ HT].
  destruct (AppFacts.ti_spin HT Hs) as (D & T1 & T2).
  rewrite H4. unfold root_due. rewrite T1. simpl. lia.
Qed.

Lemma the_first_spin_can_stop_after_its_reveal :
  exists tr s',
    forallb is_fire tr = true /\
    steps Scenario.draws tr Scenario.at_reveal = Some s' /\
    Root.isSpinning (root s') = false /\
    now s' = Nat.max (now Scenario.at_reveal) (root_due Scenario.at_reveal) /\
    now s' <= now Scenario.at_reveal + 4000.
Proof.
  apply (@every_spin_can_stop Scenario.draws Scenario.at_reveal).
  - exists (ClickSpin :: until_reveal). vm_compute. reflexivity.
  - vm_compute. reflexivity.
Defined.

End Liveness.

(** ** The dialog and the wallets *)

Module ModalFacts.

Import Data.
Local Open Scope list_scope.

(** [onDonationComplete] is called exactly when the promise resolves with
    [success] set and a non-empty [txHash], and then with that hash; in every
    other case, a result that claims success without a hash included, the
    dialog stores a message instead.  Whatever the outcome, the dialog leaves
    its processing view. *)
Theorem completion_callback_iff_success_with_hash
    (o : Modal.outcome) (m : Modal.State) (h : string) :
  (snd (Modal.handleDonateWithWallet_end o m) = Some h <->
   exists r, o = Modal.Resolved r /\ Wallet.success r = true /\
             Wallet.txHash r = Some h /\ h <> ""%string) /\
  (snd (Modal.handleDonateWithWallet_end o m) = None ->
   exists message, Modal.error (fst (Modal.handleDonateWithWallet_end o m)) = Some message) /\
  Modal.isProcessing (fst (Modal.handleDonateWithWallet_end o m)) = false.
Proof.
  unfold Modal.handleDonateWithWallet_end.
  destruct o as [[su tx er]|e].
  - destruct su, tx as [[|c t]|]; simpl.
    all: repeat split; try discriminate; try (intros; eexists; reflexivity).
    all: try (intros (r & E & H1 & H2 & H3); injection E as <-; simpl in *; congruence).
    intros E. injection E as <-. eexists. repeat split; discriminate.
  - simpl. repeat split; try discriminate; try (intros; eexists; reflexivity).
    intros (r & E & _). discriminate.
Qed.

(** A result that says [success: true] and carries no hash is a failure for
    the dialog: no callback, the message "Transaction failed" (or the
    result's own error text), the retry view. *)
Theorem success_without_hash_is_a_failure (er : option string) (m : Modal.State) :
  let r := Wallet.mkResult true None er in
  let after := Modal.handleDonateWithWallet_end (Modal.Resolved r) m in
  snd after = None /\
  Modal.render None (fst after) = Modal.ErrorView (Modal.error_or_default er) /\
  (Modal.truthy er = false -> Modal.error_or_default er = "Transaction failed"%string).
Proof.
  simpl. split; [reflexivity|]. split.
  - unfold Modal.render. simpl.
    pose proof (error_or_default_nonempty er) as H.
    destruct (Modal.error_or_default er); [congruence|reflexivity].
  - intros H. unfold Modal.error_or_default. rewrite H. reflexivity.
Qed.

(** The wallets the dialog offers after its mount effect: a sublist of the
    table in table order; Coinbase, WalletConnect and Trust Wallet are always
    among them, so the list is never empty and the "No compatible wallets"
    notice cannot appear; MetaMask is offered exactly when [window.ethereum]
    exists. *)
Theorem offered_wallets (env : Wallet.Env) (m : Modal.State) :
  let offered := Modal.availableWallets (Modal.checkWallets env m) in
  let ids := map wid offered in
  (ids = if Wallet.window_defined env && Wallet.ethereum_in_window env
         then ["metamask"; "coinbase"; "walletconnect"; "trustwallet"]%string
         else ["coinbase"; "walletconnect"; "trustwallet"]%string) /\
  offered <> [] /\
  (forall w, In w offered -> In w wallets).
Proof.
  simpl. unfold wallets. simpl. unfold Wallet.isWalletAvailable. simpl.
  destruct (Wallet.window_defined env && Wallet.ethereum_in_window env); simpl.
  - split; [reflexivity|]. split; [discriminate|]. intros w H. exact H.
  - split; [reflexivity|]. split; [discriminate|]. intros w H. simpl. right. exact H.
Qed.

End ModalFacts.

(** ** components/DonationSpinner.tsx: getSegmentColor *)

Module SegmentColor.

Open Scope string_scope.

(** [l[i]] for an integer index: reading outside the array gives
    [undefined], here [None]. *)
Definition js_get {A} (l : list A) (i : Z) : option A :=
  if (i <? 0)%Z then None else nth_error l (Z.to_nat i).

Definition colors : list string :=
  ["#FFB626"; "#3CADE2"; "#FF4C4C"; "#50C878"; "#A855F7";
   "#FFB626"; "#3CADE2"; "#FF4C4C"].

(** [colors[index % colors.length]], for an integer [index]. *)
Definition getSegmentColor (index : Z) : option string :=
  js_get colors (Z.rem index (Z.of_nat (List.length colors))).

(** For an index that is not negative the function returns an entry of the
    palette and is periodic with period 8; for a negative index that is not a
    multiple of 8 the remainder is negative and the result is [undefined],
    although the declared return type is [string]. *)
Theorem getSegmentColor_range (index : Z) :
  ((0 <= index)%Z ->
   exists c, getSegmentColor index = Some c /\ In c colors /\
             getSegmentColor (index + 8) = Some c) /\
  ((index < 0)%Z -> Z.rem index 8 <> 0%Z -> getSegmentColor index = None).
Proof.
  unfold getSegmentColor. change (Z.of_nat (List.length colors)) with 8%Z. split.
  - intros H.
    assert (Hr : (0 <= Z.rem index 8 < 8)%Z) by (apply Z.rem_bound_pos; lia).
    assert (Hp : Z.rem (index + 8) 8 = Z.rem index 8).
    { rewrite !Z.rem_mod_nonneg by lia.
      replace (index + 8)%Z with (index + 1 * 8)%Z by lia. apply Z.mod_add. lia. }
    rewrite Hp. unfold js_get.
    destruct (Z.ltb_spec (Z.rem index 8) 0) as [|_]; [lia|].
    destruct (nth_error colors (Z.to_nat (Z.rem index 8))) as [c|] eqn:E.
    + exists c. split; [reflexivity|]. split; [|reflexivity].
      eapply nth_error_In. exact E.
    + apply nth_error_None in E. simpl in E. lia.
  - intros H Hnz. unfold js_get.
    pose proof (Z.rem_nonpos index 8) as Hle.
    destruct (Z.ltb_spec (Z.rem index 8) 0) as [|Hge]; [reflexivity|]. lia.
Qed.

End SegmentColor.

(* ------------------------------------------------------------------ *)
(** ** components/CharityDial.tsx

    The dial lists [isSpinning], [currentIndex] and its callback among the
    dependencies of its effect, and the effect's cleanup calls the callback
    with [CHARITIES[currentIndex]], the index being the one of the render
    that set the effect up.  The pending interval is modelled together with
    that index (its payload). *)

Module Dial.

Import Data.
Local Open Scope list_scope.

Record State := mkState {
  isSpinning : bool;                       (* the prop at the last render *)
  currentIndex : Z;
  transitioning : bool;
  interval : option (Timer.t Z);           (* of the live effect, if any *)
  selecting : list (Timer.t Z)             (* pending 400 ms timeouts *)
}.

Definition initial : State :=
  {| isSpinning := false; currentIndex := 0; transitioning := false;
     interval := None; selecting := [] |}.

(** The argument of a call of [onCharitySelected]: [CHARITIES[i]]. *)
Definition report (i : Z) : option Charity := SegmentColor.js_get CHARITIES i.

Definition TICK : nat := 100.
Definition TRANSITION : nat := 400.

(** The cleanup of the live effect: nothing if the effect returned none. *)
Definition cleanup (s : State) : State * list (option Charity) :=
  match interval s with
  | Some tm =>
      ({| isSpinning := isSpinning s; currentIndex := currentIndex s;
          transitioning := transitioning s; interval := None;
          selecting := selecting s |},
       [report (Timer.payload tm)])
  | None => (s, [])
  end.

Definition effect (now : nat) (s : State) : State :=
  if isSpinning s then
    {| isSpinning := true; currentIndex := currentIndex s;
       transitioning := transitioning s;
       interval := Some (Timer.mk (now + TICK) 0 (currentIndex s));
       selecting := selecting s |}
  else s.

(** A render after which the effect's dependencies differ: cleanup, then the
    effect. *)
Definition rerun (now : nat) (s : State) : State * list (option Charity) :=
  let (s1, out) := cleanup s in (effect now s1, out).

(** The parent renders the dial with a new [isSpinning] or a new callback. *)
Definition propsChange (b : bool) (now : nat) (s : State)
    : State * list (option Charity) :=
  rerun now
    {| isSpinning := b; currentIndex := currentIndex s;
       transitioning := transitioning s; interval := interval s;
       selecting := selecting s |}.

(** The interval fires: the index moves on, which is a dependency. *)
Definition tick (now : nat) (s : State) : State * list (option Charity) :=
  match interval s with
  | Some _ =>
      rerun now
        {| isSpinning := isSpinning s;
           currentIndex := Z.rem (currentIndex s + 1) (Z.of_nat (List.length CHARITIES));
           transitioning := transitioning s; interval := interval s;
           selecting := selecting s |}
  | None => (s, [])
  end.

(** A click on the item at [index]. *)
Definition selectCharity (now : nat) (index : Z) (s : State)
    : State * list (option Charity) :=
  if isSpinning s || transitioning s then (s, [])
  else
    rerun now
      {| isSpinning := isSpinning s; currentIndex := index;
         transitioning := true; interval := interval s;
         selecting := selecting s ++ [Timer.mk (now + TRANSITION) 0 index] |}.

(** The 400 ms timeout of a selection fires. *)
Definition selectFire (s : State) : State * list (option Charity) :=
  match selecting s with
  | tm :: rest =>
      ({| isSpinning := isSpinning s; currentIndex := currentIndex s;
          transitioning := false; interval := interval s; selecting := rest |},
       [report (Timer.payload tm)])
  | [] => (s, [])
  end.

(** [n] firings of the interval, at the given times. *)
Fixpoint ticks (times : list nat) (s : State) : State * list (option Charity) :=
  match times with
  | [] => (s, [])
  | t :: rest =>
      let (s1, out1) := tick t s in
      let (s2, out2) := ticks rest s1 in
      (s2, out1 ++ out2)
  end.

End Dial.

Module DialFacts.

Import Data.
Local Open Scope list_scope.
Local Open Scope Z_scope.

(** A dial that is spinning, as every render leaves it: the interval is
    pending and carries the index shown. *)
Definition live (s : Dial.State) : Prop :=
  Dial.isSpinning s = true /\
  (exists tm, Dial.interval s = Some tm /\ Timer.payload tm = Dial.currentIndex s) /\
  0 <= Dial.currentIndex s < 6.

Lemma report_in_range (i : Z) :
  0 <= i < 6 -> Dial.report i = Some (Picker.charity_at i).
Proof.
  intros H. unfold Dial.report, SegmentColor.js_get.
  destruct (Z.ltb_spec i 0); [lia|].
  unfold Picker.charity_at. apply nth_error_nth'. simpl. lia.
Qed.

Lemma report_out_of_range (i : Z) : i < 0 \/ 6 <= i -> Dial.report i = None.
Proof.
  intros H. unfold Dial.report, SegmentColor.js_get.
  destruct (Z.ltb_spec i 0); [reflexivity|].
  apply nth_error_None. simpl. lia.
Qed.

Lemma propsChange_true_live now s :
  0 <= Dial.currentIndex s < 6 -> live (fst (Dial.propsChange true now s)).
Proof.
  intros H. unfold Dial.propsChange, Dial.rerun, Dial.cleanup. simpl.
  destruct (Dial.interval s); simpl; (split; [reflexivity|]);
    (split; [eexists; split; reflexivity|exact H]).
Qed.

Lemma tick_live now s :
  live s ->
  snd (Dial.tick now s) = [Some (Picker.charity_at (Dial.currentIndex s))] /\
  live (fst (Dial.tick now s)) /\
  Dial.currentIndex (fst (Dial.tick now s)) = (Dial.currentIndex s + 1) mod 6 /\
  Dial.transitioning (fst (Dial.tick now s)) = Dial.transitioning s /\
  Dial.selecting (fst (Dial.tick now s)) = Dial.selecting s.
Proof.
  intros (Hs & (tm & Hi & Hp) & Hr).
  destruct s as [b i tr iv sel]. simpl in *. subst b iv.
  unfold Dial.tick, Dial.rerun, Dial.cleanup, Dial.effect. simpl.
  change (Z.pos 6) with 6. rewrite Z.rem_mod_nonneg by lia.
  split; [rewrite Hp, report_in_range by exact Hr; reflexivity|].
  split.
  - split; [reflexivity|]. split; [eexists; split; reflexivity|].
    simpl. apply Z.mod_pos_bound. lia.
  - repeat split.
Qed.

(** While the dial spins the parent is called on every tick, with the
    charity shown before the tick: [n] firings of the interval produce [n]
    calls, running through the table in order from the index shown. *)
Theorem dial_reports_on_every_tick (times : list nat) :
  forall s, live s ->
  snd (Dial.ticks times s) =
    map (fun j => Some (Picker.charity_at ((Dial.currentIndex s + Z.of_nat j) mod 6)))
        (seq 0 (List.length times)) /\
  Dial.currentIndex (fst (Dial.ticks times s)) =
    (Dial.currentIndex s + Z.of_nat (List.length times)) mod 6 /\
  live (fst (Dial.ticks times s)).
Proof.
  induction times as [|t rest IH]; intros s Hl.
  - simpl. split; [reflexivity|]. split; [|exact Hl].
    destruct Hl as (_ & _ & Hr). rewrite Z.add_0_r, Z.mod_small by lia. reflexivity.
  - destruct (tick_live t Hl) as (Hout & Hl1 & Hidx & _).
    destruct (IH _ Hl1) as (IH1 & IH2 & IH3).
    cbn [Dial.ticks]. destruct (Dial.tick t s) as [s1 out1] eqn:Et.
    cbn [fst snd] in *. destruct (Dial.ticks rest s1) as [s2 out2] eqn:Er.
    cbn [fst snd] in *. subst out1 out2.
    destruct Hl as (_ & _ & Hr).
    split; [|split; [|exact IH3]].
    + cbn [List.length seq map app]. f_equal.
      * rewrite Z.add_0_r, Z.mod_small by lia. reflexivity.
      * rewrite <- seq_shift, map_map. apply map_ext. intros j.
        rewrite Hidx, Z.add_mod_idemp_l by lia. do 3 f_equal. lia.
    + rewrite IH2, Hidx, Z.add_mod_idemp_l by lia. cbn [List.length]. f_equal. lia.
Qed.

(** The dial at the start of a spin on a fresh mount. *)
Definition spinning_dial : Dial.State := fst (Dial.propsChange true 0 Dial.initial).

Lemma dial_reports_three_ticks :
  snd (Dial.ticks [100; 200; 300]%nat spinning_dial) =
    map (fun j => Some (Picker.charity_at ((Dial.currentIndex spinning_dial + Z.of_nat j) mod 6)))
        (seq 0 3) /\
  Dial.currentIndex (fst (Dial.ticks [100; 200; 300]%nat spinning_dial)) =
    (Dial.currentIndex spinning_dial + Z.of_nat 3) mod 6 /\
  live (fst (Dial.ticks [100; 200; 300]%nat spinning_dial)).
Proof.
  apply (@dial_reports_on_every_tick [100; 200; 300]%nat spinning_dial).
  split; [reflexivity|]. split; [eexists; split; reflexivity|]. simpl. lia.
Defined.

(** Whatever tears the live effect down reports the charity the dial is
    showing and cancels the interval: the end of the spin, a render of the
    parent with a new callback during the spin (after which the dial is
    spinning again with a new interval), and the removal of the component.
    Once stopped, further renders of the parent report nothing. *)
Theorem dial_teardown_reports_shown_charity (now : nat) (s : Dial.State) :
  live s ->
  let shown := Some (Picker.charity_at (Dial.currentIndex s)) in
  snd (Dial.propsChange false now s) = [shown] /\
  Dial.interval (fst (Dial.propsChange false now s)) = None /\
  Dial.currentIndex (fst (Dial.propsChange false now s)) = Dial.currentIndex s /\
  (forall t, snd (Dial.propsChange false t (fst (Dial.propsChange false now s))) = []) /\
  snd (Dial.propsChange true now s) = [shown] /\
  live (fst (Dial.propsChange true now s)) /\
  snd (Dial.cleanup s) = [shown] /\
  Dial.interval (fst (Dial.cleanup s)) = None.
Proof.
  intros (Hs & (tm & Hi & Hp) & Hr).
  assert (Hlive : live (fst (Dial.propsChange true now s)))
    by (apply propsChange_true_live; exact Hr).
  pose proof (report_in_range Hr) as Hrep.
  destruct s as [b i tr iv sel]. cbn [Dial.isSpinning Dial.interval Dial.currentIndex] in *.
  subst b iv.
  unfold Dial.propsChange, Dial.rerun, Dial.cleanup, Dial.effect in *.
  cbn [Dial.isSpinning Dial.interval Dial.currentIndex Dial.transitioning
       Dial.selecting fst snd] in *.
  rewrite Hp, Hrep.
  split; [reflexivity|]. split; [reflexivity|]. split; [reflexivity|].
  split; [reflexivity|]. split; [reflexivity|]. split; [exact Hlive|].
  split; reflexivity.
Qed.

Lemma dial_teardown_after_three_ticks :
  let s := fst (Dial.ticks [100; 200; 300]%nat spinning_dial) in
  snd (Dial.propsChange false 400 s) = [Some wwf] /\
  Dial.interval (fst (Dial.propsChange false 400 s)) = None.
Proof.
  destruct (@dial_teardown_reports_shown_charity 400
              (fst (Dial.ticks [100; 200; 300]%nat spinning_dial)))
    as (H1 & H2 & _).
  - split; [reflexivity|]. split; [eexists; split; reflexivity|].
    vm_compute. split; [discriminate|reflexivity].
  - split; [exact H1|exact H2].
Defined.

(** A click on an item is ignored while the dial spins or a selection is in
    transition.  Otherwise it moves the index there at once, reports nothing
    yet, and ignores every further click until its 400 ms timeout has run;
    the timeout reports [CHARITIES[index]], which is [undefined] when the
    index is outside the table. *)
Theorem dial_selection (now : nat) (index : Z) (s : Dial.State) :
  (Dial.isSpinning s || Dial.transitioning s = true ->
   Dial.selectCharity now index s = (s, [])) /\
  (Dial.isSpinning s = false -> Dial.transitioning s = false ->
   Dial.interval s = None -> Dial.selecting s = [] ->
   let s1 := fst (Dial.selectCharity now index s) in
   snd (Dial.selectCharity now index s) = [] /\
   Dial.currentIndex s1 = index /\
   (forall t j, Dial.selectCharity t j s1 = (s1, [])) /\
   snd (Dial.selectFire s1) = [Dial.report index] /\
   Dial.transitioning (fst (Dial.selectFire s1)) = false /\
   Dial.selecting (fst (Dial.selectFire s1)) = [] /\
   (0 <= index < 6 -> Dial.report index = Some (Picker.charity_at index)) /\
   (index < 0 \/ 6 <= index -> Dial.report index = None)).
Proof.
  split.
  - intros H. unfold Dial.selectCharity. rewrite H. reflexivity.
  - intros Hs Ht Hi Hsel. destruct s as [b i tr iv sel]. simpl in *. subst.
    unfold Dial.selectCharity, Dial.rerun, Dial.cleanup, Dial.effect. simpl.
    repeat split; try reflexivity.
    + apply report_in_range.
    + apply report_out_of_range.
Qed.

End DialFacts.

(** ** The ticker of the spinner *)

Module MoreFacts.

Import Data.
Local Open Scope list_scope.

(** While the wheel turns the spinner shows, at each tick, the table entry
    number [(now mod 1000) / 125]: the display runs through the table once a
    second by the clock and has nothing to do with the amount the spin will
    report, which the tick leaves untouched in the pending timeout. *)
Theorem ticker_shows_table_entry_by_clock
    (now : nat) (tm : Timer.t unit) (sp : Spinner.State) :
  ((now mod 1000) / 125 < 8)%nat /\
  Spinner.selectedAmount (Spinner.intervalTick now tm sp) =
    nth_error DONATION_AMOUNTS ((now mod 1000) / 125) /\
  Spinner.spinTimeoutRef (Spinner.intervalTick now tm sp) = Spinner.spinTimeoutRef sp.
Proof.
  assert (H : ((now mod 1000) / 125 < 8)%nat).
  { apply Nat.Div0.div_lt_upper_bound.
    pose proof (Nat.mod_upper_bound now 1000). lia. }
  split; [exact H|]. split; [|reflexivity].
  cbn [Spinner.intervalTick Spinner.selectedAmount].
  rewrite SpinnerArithmetic.tickerIndex_closed_form.
  unfold Spinner.segment_at, Spinner.segments. rewrite Nat2Z.id.
  symmetry. apply nth_error_nth'. exact H.
Qed.

Unset Implicit Arguments.

(** The indices the code reads its tables at stay inside the tables under
    the rounding of the products: [Math.floor(Math.random() * n)] lies in
    [0, n) for the six charities, the eight segments and the sixteen digits,
    also for the largest draw, [1 - 2^-53], which gives the last index of
    each. *)
Theorem scaled_draws_stay_in_the_tables (r : Rng.draw) :
  (0 <= Rng.floor_scaled r Picker.charityCount < 6)%Z /\
  (0 <= Rng.floor_scaled r Spinner.segmentCount < 8)%Z /\
  (0 <= Rng.floor_scaled r 16 < 16)%Z /\
  (Rng.val Rng.top == 1 - Double.pow2 (-53))%Q /\
  Rng.floor_scaled Rng.top Picker.charityCount = 5%Z /\
  Rng.floor_scaled Rng.top Spinner.segmentCount = 7%Z /\
  Rng.floor_scaled Rng.top 16 = 15%Z.
Proof.
  split; [apply Rng.floor_scaled_6|]. split; [apply Rng.floor_scaled_8|].
  split; [apply Rng.floor_scaled_16|].
  vm_compute. repeat split; reflexivity.
Qed.

(** When the timers due at 3900 ms and at 4000 ms run as one late batch,
    before React renders, the picker does report: wherever a spin can
    start, that run ends 4000 ms after the click with the amount and then
    the charity reported, the charity being the one the picker drew at the
    click, which [Home] then holds; nothing stays pending. *)
Theorem late_batch_reports_the_first_draw (rs : Rng.stream) (s : App.State) :
  App.reachable rs s ->
  Root.spin_button_disabled (App.root s) = false ->
  exists s',
    App.steps rs (App.ClickSpin :: App.late_batch) s = Some s' /\
    App.now s' = (App.now s + 4000)%nat /\
    App.history s' =
      App.history s ++
      [App.Started;
       App.AmountReported
         (Spinner.selectedSegment (rs (App.calls s + 1)%nat) (rs (App.calls s + 2)%nat));
       App.Stopped;
       App.CharityReported (Picker.drawCharity (rs (App.calls s)))] /\
    Root.selectedCharity (App.root s') = Some (Picker.drawCharity (rs (App.calls s))) /\
    Root.isSpinning (App.root s') = false /\
    Root.dialog_rendered (App.shown s') = true /\
    AppFacts.no_timers s'.
Proof.
  intros Hr Hd. pose proof (AppFacts.Inv_reachable Hr) as HI.
  destruct (AppFacts.inv_charity (proj1 HI)) as (c0 & Hc0 & _).
  destruct (@AppFacts.late_batch_runs rs s HI Hd)
    as (s1 & s2 & H1 & R1 & N1 & Hi1 & H2 & R2 & Sh2 & N2 & Hi2 & T2).
  exists s2. split.
  { unfold App.late_batch.
    change [App.Fire App.SpinnerTimeout; App.Fire App.PickerInterval;
            App.Fire App.RootTimeout; App.Fire App.PickerTimeout; App.Render]
      with ([App.Fire App.SpinnerTimeout; App.Fire App.PickerInterval;
             App.Fire App.RootTimeout] ++
            [App.Fire App.PickerTimeout; App.Render]).
    rewrite app_assoc, app_comm_cons, AppFacts.steps_app, H1. exact H2. }
  split; [exact N2|]. split; [exact Hi2|].
  split; [rewrite R2; reflexivity|]. split; [rewrite R2, R1; reflexivity|].
  split; [|exact T2].
  rewrite Sh2, R2, R1. unfold Root.dialog_rendered. reflexivity.
Qed.

Lemma late_batch_on_the_fresh_page :
  exists s',
    App.steps Scenario.draws (App.ClickSpin :: App.late_batch) App.initial = Some s' /\
    App.history s' =
      [App.Started; App.AmountReported 1.00%Q; App.Stopped;
       App.CharityReported unicef].
Proof.
  destruct (late_batch_reports_the_first_draw Scenario.draws App.initial)
    as (s' & H1 & _ & H3 & _).
  - exists []. reflexivity.
  - reflexivity.
  - exists s'. split; [exact H1|].
    rewrite H3. vm_compute. reflexivity.
Defined.

Set Implicit Arguments.

End MoreFacts.
